(** * clap_detection.ino: the clap history ring and the sequence matcher

    A shallow embedding of the Arduino sketch [clap_detection.ino] and the
    properties of its event-timing core: the [circular_buffer] template that
    stores inter-clap intervals, the recursive matcher
    [detect_clap_sequence], and the admission test of [loop]. *)

From Stdlib Require Import ZArith Lia List Bool.
From stdpp Require Import base option list numbers.

Local Open Scope Z_scope.

(** ** Machine integers

    The sketch computes with [unsigned int] and [unsigned long].  The width
    of [unsigned long] is 32 bits on every Arduino core; the width of
    [unsigned int] is 16 bits on AVR boards and 32 bits on ARM boards, so it
    is a parameter of the development. *)

Class Platform := { uint_bits : Z }.

Definition ulong_bits : Z := 32.

Definition wrap (bits x : Z) : Z := x mod 2 ^ bits.

Definition ulong (x : Z) : Z := wrap ulong_bits x.

Definition uint `{Platform} (x : Z) : Z := wrap uint_bits x.

(** The C standard guarantees at least 16 bits for [unsigned int], and
    [unsigned long] is at least as wide. *)
Definition platform_ok `{Platform} : Prop := 16 <= uint_bits <= ulong_bits.

(** The AVR boards (Uno, Nano, Mega): 16-bit [unsigned int]. *)
Definition avr : Platform := {| uint_bits := 16 |}.

(** The ARM boards (Due, Zero): 32-bit [unsigned int]. *)
Definition arm : Platform := {| uint_bits := 32 |}.

(** ** Outcomes

    A call either returns, or runs into undefined behaviour (an array access
    out of bounds), or exhausts the fuel of the model. *)

Inductive outcome (A : Type) : Type :=
| Returns (a : A)
| Undefined
| OutOfFuel.

Arguments Returns {A} a.
Arguments Undefined {A}.
Arguments OutOfFuel {A}.

(** ** C arrays: a read or a write outside the array is undefined *)

Definition load {A} (d : list A) (i : Z) : option A :=
  if 0 <=? i then d !! Z.to_nat i else None.

Definition store {A} (d : list A) (i : Z) (v : A) : option (list A) :=
  if (0 <=? i) && (i <? Z.of_nat (length d))
  then Some (<[Z.to_nat i := v]> d) else None.

(** ** [template <typename T, unsigned int buffer_size> class circular_buffer]
    at [T = unsigned long] *)

Module circular_buffer.

Record t : Type := Build { head : Z; tail : Z; data : list Z }.

Section methods.
Context `{Platform}.
Variable buffer_size : Z.

(** [head = 0; tail = 0; data[buffer_size] = {0}] *)
Definition init : t :=
  {| head := 0; tail := 0; data := replicate (Z.to_nat buffer_size) 0 |}.

(** [for (unsigned int i = 0; i < buffer_size; i++) data[i] = value;]
    with [n] the number of iterations left. [i] stays below [buffer_size],
    so [i++] never wraps. *)
Fixpoint clear_from (n : nat) (i : Z) (value : Z) (d : list Z)
  : option (list Z) :=
  match n with
  | O => Some d
  | S n' => d' ← store d i value; clear_from n' (i + 1) value d'
  end.

Definition clear (value : Z) (cb : t) : option t :=
  d ← clear_from (Z.to_nat buffer_size) 0 value (data cb);
  Some {| head := head cb; tail := tail cb; data := d |}.

(** [data[head] = element; head++; if (head >= buffer_size) head = 0;] *)
Definition insert (element : Z) (cb : t) : option t :=
  d ← store (data cb) (head cb) element;
  let head' := uint (head cb + 1) in
  Some {| head := if buffer_size <=? head' then 0 else head';
          tail := tail cb; data := d |}.

(** The slot [(head - index - 1) & (buffer_size - 1)], in [unsigned int]
    arithmetic. *)
Definition slot (cb : t) (index : Z) : Z :=
  Z.land (uint (uint (head cb - index) - 1)) (uint (buffer_size - 1)).

(** [T &operator[](unsigned int index)], used for reading only. *)
Definition subscript (cb : t) (index : Z) : option Z :=
  load (data cb) (slot cb index).

End methods.
End circular_buffer.

Abbreviation ring := circular_buffer.t.

(** ** The clap history and the matcher *)

(** [circular_buffer<unsigned long, 128> clap;] *)
Definition clap_buffer_size : Z := 128.

Definition clap_sequence_timings : list Z := [1000; 1000].
Definition clap_sequence_size : Z := 3.
Definition max_clap_deviation : Z := 200.

(** The literal [15] of [if (buffer_position > 15) return false;]. *)
Definition lookahead_limit : Z := 15.

Section matcher.
Context `{Platform}.

Definition clap_at (clap : ring) (index : Z) : option Z :=
  circular_buffer.subscript clap_buffer_size clap index.

(** [current_delay += clap[buffer_position]]: the sum is formed in
    [unsigned long] and converted to the [unsigned int] accumulator. *)
Definition accumulate (current_delay sample : Z) : Z :=
  uint (ulong (current_delay + sample)).

(** The body of [detect_clap_sequence]: one unit of fuel per pass through
    the head of the [while (true)] loop, the recursive call included. The
    global [clap] is threaded through as the last argument and returned. *)
Fixpoint detect_loop (fuel : nat)
    (sequence_position buffer_position can_skip current_delay : Z)
    (clap : ring) : outcome (bool * ring) :=
  match fuel with
  | O => OutOfFuel
  | S fuel' =>
    if lookahead_limit <? buffer_position then Returns (false, clap)
    else
      match clap_at clap buffer_position with
      | None => Undefined
      | Some sample =>
        let current_delay := accumulate current_delay sample in
        match load clap_sequence_timings sequence_position with
        | None => Undefined
        | Some timing =>
          if current_delay <? uint (timing - max_clap_deviation) then
            detect_loop fuel' sequence_position (uint (buffer_position + 1))
                        can_skip current_delay clap
          else if uint (timing + max_clap_deviation) <? current_delay then
            Returns (false, clap)
          else if sequence_position =? 0 then
            match circular_buffer.clear clap_buffer_size 0 clap with
            | None => Undefined
            | Some clap' => Returns (true, clap')
            end
          else
            detect_loop fuel' (uint (sequence_position - 1))
                        (uint (buffer_position + 1)) can_skip 0 clap
        end
      end
  end.

(** Every pass either returns or moves [buffer_position] up by one, and a
    pass with [buffer_position > 15] returns: 17 passes are enough from
    any start (see [detect_loop_fuel]). *)
Definition scan_fuel : nat := 17.

Definition detect_clap_sequence
    (sequence_position buffer_position can_skip : Z) (clap : ring)
  : outcome (bool * ring) :=
  detect_loop scan_fuel sequence_position buffer_position can_skip 0 clap.

End matcher.

(** ** The sketch around the matcher *)

Definition US_GND_PIN : Z := 12.
Definition US_TRIG_PIN : Z := 10.
Definition US_VCC_PIN : Z := 9.
Definition LED_PIN : Z := 4.
Definition SERVO_MIN_ANGLE : Z := 10.
Definition SERVO_MAX_ANGLE : Z := 150.
Definition ULTRASONIC_TIMEOUT : Z := 133000.
Definition BROWNOUT : Z := 720.

(** What the sketch does to its pins; the serial log and the delays are left
    out. *)
Inductive output : Type :=
| DigitalWrite (pin : Z) (level : bool)
| ServoWrite (angle : Z).

(** The globals and the function-local statics. [last_clap_time] is [None]
    until the first call of [on_sound_detected] initialises it. *)
Record sketch : Type := Sketch {
  clap : ring;
  last_clap_time : option Z;
  claw_state : bool;
  outputs : list output
}.

(** What one pass of [loop] reads from the hardware: [pulseIn], the
    [analogRead] of [BROWNOUT_DETECT_PIN], and the two values of [millis()]
    ([millis_static] is only used when the static is initialised). *)
Record readings : Type := Readings {
  pulse_duration : Z;
  brownout_sample : Z;
  millis_static : Z;
  millis_now : Z
}.

Definition emit (o : list output) (st : sketch) : sketch :=
  {| clap := clap st; last_clap_time := last_clap_time st;
     claw_state := claw_state st; outputs := outputs st ++ o |}.

Definition on_sequence_detected (st : sketch) : sketch :=
  let claw := negb (claw_state st) in
  {| clap := clap st; last_clap_time := last_clap_time st;
     claw_state := claw;
     outputs := outputs st ++
       [ServoWrite (if claw then SERVO_MIN_ANGLE else SERVO_MAX_ANGLE)] |}.

Definition trigger (st : sketch) : sketch :=
  emit [DigitalWrite US_TRIG_PIN false; DigitalWrite US_TRIG_PIN true;
        DigitalWrite US_TRIG_PIN false] st.

Section sketch.
Context `{Platform}.

(** [on_sound_detected]: the interval since the last clap goes into the
    history, the matcher runs on it, the claw toggles on a match, and the
    LED is pulsed. *)
Definition on_sound_detected (r : readings) (st : sketch) : outcome sketch :=
  let last := default (millis_static r) (last_clap_time st) in
  let now := millis_now r in
  match circular_buffer.insert clap_buffer_size (ulong (now - last)) (clap st) with
  | None => Undefined
  | Some clap1 =>
    (* the four [Serial.print(clap[i])] *)
    match mapM (clap_at clap1) [0; 1; 2; 3] with
    | None => Undefined
    | Some _ =>
      match detect_clap_sequence (uint (clap_sequence_size - 2)) 0 0 clap1 with
      | Undefined => Undefined
      | OutOfFuel => OutOfFuel
      | Returns (detected_sequence, clap2) =>
        let st1 := {| clap := clap2; last_clap_time := Some now;
                      claw_state := claw_state st; outputs := outputs st |} in
        let st2 := if detected_sequence then on_sequence_detected st1 else st1 in
        Returns (emit [DigitalWrite LED_PIN true; DigitalWrite LED_PIN false] st2)
      end
    end
  end.

(** One pass of [loop]. The pass also logs the pulse duration and the
    reading of a pin [ULTRASONIC_DETECT_PIN] that the sketch does not
    define; the log is left out. *)
Definition loop (r : readings) (st : sketch) : outcome sketch :=
  let st := trigger st in
  if (pulse_duration r <? ULTRASONIC_TIMEOUT)
     && (brownout_sample r <? BROWNOUT)
  then on_sound_detected r st
  else Returns st.

End sketch.

(** The state after the declarations and [setup()]: an empty history and
    one toggle of the claw. *)
Definition setup : sketch :=
  on_sequence_detected
    {| clap := circular_buffer.init clap_buffer_size;
       last_clap_time := None; claw_state := false;
       outputs := [DigitalWrite US_GND_PIN false; DigitalWrite US_VCC_PIN true;
                   DigitalWrite LED_PIN false; ServoWrite 0] |}.

(** ** Vocabulary of the properties *)

(** The class invariant of [circular_buffer<T, buffer_size>]: the array has
    [buffer_size] elements and the write cursor points into it. *)
Definition ring_wf (buffer_size : Z) (cb : ring) : Prop :=
  0 <= circular_buffer.head cb < buffer_size
  /\ Z.of_nat (length (circular_buffer.data cb)) = buffer_size.

(** A capacity that is a power of two and fits [unsigned int]. *)
Definition pow2_size `{Platform} (buffer_size : Z) : Prop :=
  exists k, 0 <= k < uint_bits /\ buffer_size = 2 ^ k.

(** Every slot of the clap history holds [0]. *)
Definition all_zero (cb : ring) : Prop :=
  circular_buffer.data cb = replicate (Z.to_nat clap_buffer_size) 0.

(** [xs] inserted one after the other, oldest first. *)
Definition insert_all `{Platform} (buffer_size : Z) (xs : list Z) (cb : ring)
  : option ring :=
  foldl (fun acc x => acc ≫= circular_buffer.insert buffer_size x) (Some cb) xs.

(** The samples of the history from age [from] on are [l], newest first. *)
Definition ages_from `{Platform} (cb : ring) (from : Z) (l : list Z) : Prop :=
  forall (i : nat) (x : Z), l !! i = Some x -> clap_at cb (from + Z.of_nat i) = Some x.

(** The sum of the samples of one gap, in exact arithmetic. *)
Definition total (l : list Z) : Z := foldr Z.add 0 l.

(** The tolerance band [timing - max_clap_deviation .. timing +
    max_clap_deviation] of a target interval, in exact arithmetic. *)
Definition in_band (timing s : Z) : Prop :=
  timing - max_clap_deviation <= s <= timing + max_clap_deviation.

(** The samples of one gap, newest first, that the scan absorbs one by one:
    all of them are non-negative and the sum of all but the oldest stays
    below the lower bound of the band. *)
Definition absorbed_gap (timing : Z) (g : list Z) : Prop :=
  exists noise x, g = noise ++ [x]
    /\ Forall (fun s => 0 <= s) g
    /\ total noise < timing - max_clap_deviation.

(** The number of LED pulses among the outputs: one per call of
    [on_sound_detected]. *)
Definition led_on (e : output) : bool :=
  match e with
  | DigitalWrite pin true => pin =? LED_PIN
  | _ => false
  end.

Definition led_pulses (o : list output) : nat :=
  length (List.filter led_on o).

(** The clap history after the samples [xs] were inserted, oldest first,
    into the history as declared. *)
Definition history_of `{Platform} (xs : list Z) : ring :=
  default (circular_buffer.init clap_buffer_size)
          (insert_all clap_buffer_size xs (circular_buffer.init clap_buffer_size)).

(** [n] calls of the matcher one after the other with the same arguments,
    each on the history the previous one left; the results in order. *)
Fixpoint repeated `{Platform} (n : nat) (sp bp can_skip : Z) (clap : ring)
  : list (outcome (bool * ring)) :=
  match n with
  | O => []
  | S n' =>
    let r := detect_clap_sequence sp bp can_skip clap in
    r :: match r with
         | Returns (_, clap') => repeated n' sp bp can_skip clap'
         | _ => []
         end
  end.

(** The Arduino runtime calls [loop] again and again: the passes for the
    readings [rs], in order. *)
Fixpoint loop_passes `{Platform} (rs : list readings) (st : sketch)
  : outcome sketch :=
  match rs with
  | [] => Returns st
  | r :: rs' =>
    match loop r st with
    | Returns st' => loop_passes rs' st'
    | Undefined => Undefined
    | OutOfFuel => OutOfFuel
    end
  end.

(** The test of the [if] in [loop], as a property of the readings. *)
Definition admitted (r : readings) : bool :=
  (pulse_duration r <? ULTRASONIC_TIMEOUT) && (brownout_sample r <? BROWNOUT).

(** The angles written to the servo, oldest first. *)
Definition servo_angles (o : list output) : list Z :=
  omap (fun e => match e with ServoWrite a => Some a | _ => None end) o.

(** The answer of a call of the matcher, without the history. *)
Definition verdict (r : outcome (bool * ring)) : option bool :=
  match r with
  | Returns (b, _) => Some b
  | _ => None
  end.

(** The last angle written to the servo is the one of the claw state. *)
Definition servo_at_claw (st : sketch) : Prop :=
  list.last (servo_angles (outputs st))
  = Some (if claw_state st then SERVO_MIN_ANGLE else SERVO_MAX_ANGLE).

(** ** Machine arithmetic *)

Section arithmetic.
Context `{Platform}.

Lemma pow2_uint_bits_ge : platform_ok -> 2 ^ 16 <= 2 ^ uint_bits.
Proof. intros [Hlo _]. apply Z.pow_le_mono_r; lia. Qed.

Lemma uint_small x : platform_ok -> 0 <= x < 2 ^ 16 -> uint x = x.
Proof.
  intros Hok Hx. pose proof (pow2_uint_bits_ge Hok).
  unfold uint, wrap. apply Z.mod_small. lia.
Qed.

Lemma uint_range x : 0 <= uint_bits -> 0 <= uint x < 2 ^ uint_bits.
Proof.
  intros Hw. unfold uint, wrap. apply Z.mod_pos_bound.
  apply Z.pow_pos_nonneg; lia.
Qed.

Lemma accumulate_mod cd s :
  platform_ok -> accumulate cd s = (cd + s) mod 2 ^ uint_bits.
Proof.
  intros [Hlo Hhi]. unfold accumulate, uint, ulong, wrap, ulong_bits in *.
  apply Z.mod_mod_divide. exists (2 ^ (32 - uint_bits)).
  rewrite <- Z.pow_add_r by lia. f_equal. lia.
Qed.

Lemma accumulate_small cd s :
  platform_ok -> 0 <= cd + s < 2 ^ uint_bits -> accumulate cd s = cd + s.
Proof.
  intros Hok Hx. rewrite accumulate_mod by done. by apply Z.mod_small.
Qed.

End arithmetic.

(** ** The circular buffer *)

Lemma load_Some {A} (d : list A) i :
  0 <= i < Z.of_nat (length d) -> is_Some (load d i).
Proof.
  intros Hi. unfold load. destruct (Z.leb_spec 0 i); [|lia].
  apply lookup_lt_is_Some. lia.
Qed.

Lemma store_Some {A} (d : list A) i v :
  0 <= i < Z.of_nat (length d) -> store d i v = Some (<[Z.to_nat i := v]> d).
Proof.
  intros Hi. unfold store.
  destruct (Z.leb_spec 0 i); [|lia]. destruct (Z.ltb_spec i (Z.of_nat (length d))); [|lia].
  done.
Qed.

Lemma store_inv {A} (d d' : list A) i v :
  store d i v = Some d' ->
  0 <= i < Z.of_nat (length d) /\ d' = <[Z.to_nat i := v]> d.
Proof.
  unfold store.
  destruct (Z.leb_spec 0 i); destruct (Z.ltb_spec i (Z.of_nat (length d)));
    simpl; intros Heq; inversion Heq; lia || (split; [lia|done]).
Qed.

Section buffer.
Context `{Platform}.
Variable buffer_size : Z.

Import circular_buffer.

Lemma clear_from_spec n : forall i value d,
  0 <= i -> i + Z.of_nat n <= Z.of_nat (length d) ->
  exists d', clear_from n i value d = Some d'
    /\ length d' = length d
    /\ forall j : nat,
         d' !! j = if decide (i <= Z.of_nat j < i + Z.of_nat n)
                   then Some value else d !! j.
Proof.
  induction n as [|n IH]; intros i value d Hi Hlen.
  - exists d. split; [done|]. split; [done|]. intros j.
    destruct (decide _); [lia|done].
  - cbn [clear_from]. rewrite store_Some by lia. simpl.
    destruct (IH (i + 1) value (<[Z.to_nat i := value]> d)) as (d' & Hd' & Hl & Hlk).
    { lia. } { rewrite length_insert. lia. }
    exists d'. split; [done|]. rewrite length_insert in Hl. split; [done|].
    intros j. rewrite Hlk.
    destruct (decide (i + 1 <= Z.of_nat j < i + 1 + Z.of_nat n)).
    + destruct (decide _); [done|lia].
    + destruct (decide (Z.to_nat i = j)) as [<-|Hne].
      * rewrite list_lookup_insert_eq by lia. destruct (decide _); [done|lia].
      * rewrite list_lookup_insert_ne by done. destruct (decide _); [lia|done].
Qed.

Lemma clear_from_inv n : forall i value d d',
  0 <= i -> clear_from n i value d = Some d' ->
  n = O \/ i + Z.of_nat n <= Z.of_nat (length d).
Proof.
  induction n as [|n IH]; intros i value d d' Hi Heq.
  - by left.
  - right. cbn [clear_from] in Heq.
    destruct (store d i value) as [d1|] eqn:Hst; [|done]. simpl in Heq.
    apply store_inv in Hst as [Hr ->].
    apply IH in Heq; [|lia]. rewrite length_insert in Heq. lia.
Qed.

Lemma clear_wf value cb :
  Z.of_nat (length (data cb)) = buffer_size ->
  clear buffer_size value cb
  = Some {| head := head cb; tail := tail cb;
            data := replicate (Z.to_nat buffer_size) value |}.
Proof.
  intros Hl. unfold clear.
  destruct (clear_from_spec (Z.to_nat buffer_size) 0 value (data cb))
    as (d' & -> & Hlen & Hlk); [lia|lia|]. simpl. do 2 f_equal.
  apply list_eq. intros j. rewrite Hlk.
  destruct (decide _) as [Hj|Hj].
  - symmetry. apply lookup_replicate_2. lia.
  - rewrite (lookup_ge_None_2 (data cb)) by lia.
    symmetry. apply lookup_ge_None_2. rewrite length_replicate. lia.
Qed.

Lemma clear_inv value cb cb' :
  0 <= buffer_size ->
  clear buffer_size value cb = Some cb' ->
  buffer_size <= Z.of_nat (length (data cb))
  /\ head cb' = head cb
  /\ length (data cb') = length (data cb)
  /\ forall j : nat, Z.of_nat j < buffer_size -> data cb' !! j = Some value.
Proof.
  intros Hb. unfold clear.
  destruct (clear_from _ _ _ _) as [d|] eqn:Heq; [|done]. simpl.
  intros [= <-]. simpl.
  pose proof (clear_from_inv _ _ _ _ _ (Z.le_refl 0) Heq) as Hlen.
  destruct (clear_from_spec (Z.to_nat buffer_size) 0 value (data cb))
    as (d' & Heq' & Hl & Hlk); [lia|lia|].
  rewrite Heq in Heq'. injection Heq' as <-.
  split; [lia|]. split; [done|]. split; [done|].
  intros j Hj. rewrite Hlk. destruct (decide _); [done|lia].
Qed.

Lemma insert_wf element cb :
  0 < uint_bits -> buffer_size < 2 ^ uint_bits ->
  ring_wf buffer_size cb ->
  exists cb', insert buffer_size element cb = Some cb'
    /\ ring_wf buffer_size cb'
    /\ data cb' = <[Z.to_nat (head cb) := element]> (data cb)
    /\ head cb' = (head cb + 1) mod buffer_size.
Proof.
  intros Hw Hb [Hh Hl]. unfold insert. rewrite store_Some by lia. simpl.
  eexists. split; [done|]. unfold ring_wf. simpl. rewrite length_insert.
  assert (uint (head cb + 1) = head cb + 1) as ->.
  { unfold uint, wrap. apply Z.mod_small. lia. }
  destruct (Z.leb_spec buffer_size (head cb + 1)).
  - assert (head cb + 1 = buffer_size) as -> by lia.
    rewrite Z_mod_same_full. repeat split; lia.
  - rewrite Z.mod_small by lia. repeat split; lia.
Qed.

Lemma slot_mod cb index :
  pow2_size buffer_size ->
  slot buffer_size cb index = (head cb - index - 1) mod buffer_size.
Proof.
  intros (k & [Hk0 Hk] & ->). unfold slot, uint, wrap.
  assert (0 < 2 ^ k) by (apply Z.pow_pos_nonneg; lia).
  assert (0 < 2 ^ uint_bits) by (apply Z.pow_pos_nonneg; lia).
  assert (2 ^ k < 2 ^ uint_bits) by (apply Z.pow_lt_mono_r; lia).
  rewrite (Z.mod_small (2 ^ k - 1)) by lia.
  replace (2 ^ k - 1) with (Z.ones k) by (rewrite Z.ones_equiv; lia).
  rewrite Z.land_ones by lia.
  rewrite Zminus_mod_idemp_l.
  apply Z.mod_mod_divide.
  exists (2 ^ (uint_bits - k)). rewrite <- Z.pow_add_r by lia. f_equal. lia.
Qed.

Lemma slot_range cb index :
  pow2_size buffer_size -> 0 <= slot buffer_size cb index < buffer_size.
Proof.
  intros Hp. rewrite slot_mod by done. destruct Hp as (k & Hk & ->).
  apply Z.mod_pos_bound. apply Z.pow_pos_nonneg; lia.
Qed.

Lemma subscript_load cb index :
  pow2_size buffer_size ->
  subscript buffer_size cb index
  = data cb !! Z.to_nat ((head cb - index - 1) mod buffer_size).
Proof.
  intros Hp. unfold subscript, load. pose proof (slot_range cb index Hp).
  rewrite <- slot_mod by done. destruct (Z.leb_spec 0 (slot buffer_size cb index)); [done|lia].
Qed.

Lemma subscript_insert_0 element cb cb' :
  pow2_size buffer_size -> ring_wf buffer_size cb ->
  insert buffer_size element cb = Some cb' ->
  subscript buffer_size cb' 0 = Some element.
Proof.
  intros Hp Hwf Hins.
  assert (0 < uint_bits /\ buffer_size < 2 ^ uint_bits) as [Hw Hb].
  { destruct Hp as (k & Hk & ->). split; [lia|]. apply Z.pow_lt_mono_r; lia. }
  destruct (insert_wf element cb Hw Hb Hwf) as (cb1 & Heq & Hwf' & Hd & Hh).
  rewrite Hins in Heq. injection Heq as <-.
  rewrite subscript_load by done. rewrite Hh, Hd.
  destruct Hwf as [Hr Hl].
  replace ((head cb + 1) mod buffer_size - 0 - 1) with ((head cb + 1) mod buffer_size - 1) by lia.
  rewrite Zminus_mod_idemp_l.
  replace (head cb + 1 - 1) with (head cb) by lia.
  rewrite Z.mod_small by lia. apply list_lookup_insert_eq. lia.
Qed.

Lemma subscript_insert_S element cb cb' index :
  pow2_size buffer_size -> ring_wf buffer_size cb ->
  insert buffer_size element cb = Some cb' ->
  0 <= index -> index + 1 < buffer_size ->
  subscript buffer_size cb' (index + 1) = subscript buffer_size cb index.
Proof.
  intros Hp Hwf Hins Hi0 Hi.
  assert (0 < uint_bits /\ buffer_size < 2 ^ uint_bits) as [Hw Hb].
  { destruct Hp as (k & Hk & ->). split; [lia|]. apply Z.pow_lt_mono_r; lia. }
  destruct (insert_wf element cb Hw Hb Hwf) as (cb1 & Heq & Hwf' & Hd & Hh).
  rewrite Hins in Heq. injection Heq as <-.
  rewrite !subscript_load by done. rewrite Hh, Hd.
  destruct Hwf as [Hr Hl].
  replace ((head cb + 1) mod buffer_size - (index + 1) - 1)
    with ((head cb + 1) mod buffer_size - (index + 2)) by lia.
  rewrite Zminus_mod_idemp_l.
  replace (head cb + 1 - (index + 2)) with (head cb - index - 1) by lia.
  apply list_lookup_insert_ne.
  pose proof (Z.mod_pos_bound (head cb - index - 1) buffer_size ltac:(lia)) as Hm.
  intros Heq. apply Z2Nat.inj in Heq; [|lia|lia].
  assert (head cb - index - 1 = head cb - (index + 1)) as Hre by lia.
  rewrite Hre in Heq.
  destruct (Z.le_gt_cases (index + 1) (head cb)).
  - rewrite Z.mod_small in Heq by lia. lia.
  - assert (head cb - (index + 1) + buffer_size
            = (head cb - (index + 1)) mod buffer_size) as Hneg.
    { apply (Z.mod_unique_pos _ _ (-1)); lia. }
    lia.
Qed.

End buffer.

(** Reading after a run of insertions: the newest [length xs] ages hold [xs]
    backwards, the older ages hold what was there before, shifted. *)
Lemma insert_all_ages `{Platform} (buffer_size : Z) (xs : list Z) :
  forall cb : ring,
  pow2_size buffer_size -> ring_wf buffer_size cb ->
  exists cb', insert_all buffer_size xs cb = Some cb'
    /\ ring_wf buffer_size cb'
    /\ forall index, 0 <= index < buffer_size ->
         circular_buffer.subscript buffer_size cb' index
         = match rev xs !! Z.to_nat index with
           | Some x => Some x
           | None => circular_buffer.subscript buffer_size cb
                       (index - Z.of_nat (length xs))
           end.
Proof.
  induction xs as [|x xs IH] using rev_ind; intros cb Hp Hwf.
  - exists cb. split; [done|]. split; [done|]. intros index Hi. simpl.
    f_equal. lia.
  - destruct (IH cb Hp Hwf) as (cb1 & Hall & Hwf1 & Hages).
    assert (0 < uint_bits /\ buffer_size < 2 ^ uint_bits) as [Hw Hb].
    { destruct Hp as (k & Hk & ->). split; [lia|]. apply Z.pow_lt_mono_r; lia. }
    destruct (insert_wf buffer_size x cb1 Hw Hb Hwf1)
      as (cb2 & Hins & Hwf2 & _ & _).
    exists cb2. split.
    { unfold insert_all in *. rewrite foldl_app. simpl. rewrite Hall. done. }
    split; [done|]. intros index Hi.
    rewrite rev_app_distr, length_app. simpl.
    destruct (decide (index = 0)) as [->|Hne].
    + simpl. by apply (subscript_insert_0 buffer_size x cb1 cb2).
    + replace index with ((index - 1) + 1) at 1 by lia.
      rewrite (subscript_insert_S buffer_size x cb1 cb2) by (done || lia).
      rewrite Hages by lia.
      replace (Z.to_nat index) with (S (Z.to_nat (index - 1))) by lia. simpl.
      destruct (rev xs !! Z.to_nat (index - 1)); [done|]. f_equal. lia.
Qed.

(** ** The matcher *)

Section matcher_facts.
Context `{Platform}.

Lemma clap_pow2 : platform_ok -> pow2_size clap_buffer_size.
Proof. intros [Hlo _]. exists 7. split; [lia|done]. Qed.

Lemma clap_at_Some (clap : ring) index :
  platform_ok ->
  Z.of_nat (length (circular_buffer.data clap)) = clap_buffer_size ->
  is_Some (clap_at clap index).
Proof.
  intros Hok Hlen. unfold clap_at, circular_buffer.subscript.
  apply load_Some. rewrite Hlen. apply slot_range. by apply clap_pow2.
Qed.

Lemma clap_at_all_zero (clap : ring) index :
  platform_ok -> all_zero clap -> clap_at clap index = Some 0.
Proof.
  intros Hok Hz. unfold clap_at.
  rewrite subscript_load by (by apply clap_pow2). rewrite Hz.
  apply lookup_replicate_2.
  pose proof (Z.mod_pos_bound (circular_buffer.head clap - index - 1)
                clap_buffer_size ltac:(done)). lia.
Qed.

Lemma timing_lookup sp timing :
  load clap_sequence_timings sp = Some timing ->
  0 <= sp < clap_sequence_size - 1 /\ timing = 1000.
Proof.
  unfold load. destruct (Z.leb_spec 0 sp); [|done].
  destruct (Z.to_nat sp) as [|[|n]] eqn:Hn; simpl; intros [= <-];
    unfold clap_sequence_size; lia.
Qed.

Lemma timing_in_range sp :
  0 <= sp < clap_sequence_size - 1 -> load clap_sequence_timings sp = Some 1000.
Proof.
  unfold clap_sequence_size, load. intros Hsp.
  destruct (Z.leb_spec 0 sp); [|lia].
  assert (sp = 0 \/ sp = 1) as [-> | ->] by lia; done.
Qed.

Lemma lower_bound_800 : platform_ok -> uint (1000 - max_clap_deviation) = 800.
Proof. intros Hok. by apply uint_small. Qed.

Lemma upper_bound_1200 : platform_ok -> uint (1000 + max_clap_deviation) = 1200.
Proof. intros Hok. by apply uint_small. Qed.

(** One pass through the loop, spelled out for an in-range position. *)
Lemma detect_loop_pass f sp bp c cd (clap : ring) sample :
  platform_ok ->
  0 <= sp < clap_sequence_size - 1 ->
  0 <= bp <= lookahead_limit ->
  clap_at clap bp = Some sample ->
  detect_loop (S f) sp bp c cd clap
  = if accumulate cd sample <? 800 then
      detect_loop f sp (bp + 1) c (accumulate cd sample) clap
    else if 1200 <? accumulate cd sample then Returns (false, clap)
    else if sp =? 0 then
      match circular_buffer.clear clap_buffer_size 0 clap with
      | None => Undefined
      | Some clap' => Returns (true, clap')
      end
    else detect_loop f (sp - 1) (bp + 1) c 0 clap.
Proof.
  intros Hok Hsp Hbp Hs. cbn [detect_loop].
  destruct (Z.ltb_spec lookahead_limit bp); [lia|].
  rewrite Hs, (timing_in_range sp Hsp).
  rewrite lower_bound_800, upper_bound_1200 by done.
  unfold lookahead_limit, clap_sequence_size in *.
  rewrite (uint_small (bp + 1)) by (done || lia).
  destruct (Z.eqb_spec sp 0); [done|].
  by rewrite (uint_small (sp - 1)) by (done || lia).
Qed.

Lemma detect_loop_beyond f sp bp c cd (clap : ring) :
  lookahead_limit < bp -> detect_loop (S f) sp bp c cd clap = Returns (false, clap).
Proof.
  intros Hbp. cbn [detect_loop]. by destruct (Z.ltb_spec lookahead_limit bp); [|lia].
Qed.

Lemma ages_from_cons (clap : ring) from s l :
  ages_from clap from (s :: l) ->
  clap_at clap from = Some s /\ ages_from clap (from + 1) l.
Proof.
  intros Hl. split.
  - specialize (Hl O s eq_refl). by rewrite Z.add_0_r in Hl.
  - intros i x Hi. specialize (Hl (S i) x Hi).
    by replace (from + 1 + Z.of_nat i) with (from + Z.of_nat (S i)) by lia.
Qed.

Lemma ages_from_app (clap : ring) from l1 l2 :
  ages_from clap from (l1 ++ l2) ->
  ages_from clap from l1 /\ ages_from clap (from + Z.of_nat (length l1)) l2.
Proof.
  intros Hl. split.
  - intros i x Hi. apply Hl. by apply lookup_app_l_Some.
  - intros i x Hi. specialize (Hl (length l1 + i)%nat x).
    rewrite lookup_app_r in Hl by lia.
    replace (length l1 + i - length l1)%nat with i in Hl by lia.
    specialize (Hl Hi).
    by replace (from + Z.of_nat (length l1) + Z.of_nat i)
      with (from + Z.of_nat (length l1 + i)) by lia.
Qed.

(** The scan absorbs a run of samples whose sum stays below the band. *)
Lemma absorb_noise (clap : ring) c sp noise :
  platform_ok ->
  0 <= sp < clap_sequence_size - 1 ->
  forall f bp cd,
  0 <= bp -> bp + Z.of_nat (length noise) <= lookahead_limit + 1 ->
  ages_from clap bp noise ->
  Forall (fun s => 0 <= s) noise ->
  0 <= cd -> cd + total noise < 800 ->
  detect_loop (length noise + f) sp bp c cd clap
  = detect_loop f sp (bp + Z.of_nat (length noise)) c (cd + total noise) clap.
Proof.
  intros Hok Hsp. induction noise as [|s noise IH]; intros f bp cd Hbp Hlen Hages Hpos Hcd Hsum.
  - simpl. f_equal; lia.
  - apply ages_from_cons in Hages as [Hs Hages].
    apply Forall_cons_1 in Hpos as [Hs0 Hpos].
    assert (0 <= total noise).
    { clear -Hpos. induction Hpos; simpl; lia. }
    simpl in Hsum, Hlen. simpl length.
    replace (S (length noise) + f)%nat with (S (length noise + f)) by lia.
    pose proof (pow2_uint_bits_ge Hok).
    rewrite (detect_loop_pass _ _ _ _ _ _ s) by (done || unfold lookahead_limit in *; lia).
    rewrite accumulate_small by (done || lia).
    destruct (Z.ltb_spec (cd + s) 800); [|lia].
    rewrite IH by (done || lia). f_equal; simpl; lia.
Qed.

End matcher_facts.

Section matcher_gaps.
Context `{Platform}.

Lemma total_app l1 l2 : total (l1 ++ l2) = total l1 + total l2.
Proof. induction l1 as [|x l1 IH]; simpl; [done|]. rewrite IH. lia. Qed.

Lemma total_nonneg l : Forall (fun s => 0 <= s) l -> 0 <= total l.
Proof. induction 1; simpl; lia. Qed.

Lemma total_zeros n : total (replicate n 0) = 0.
Proof. induction n as [|n IH]; simpl; [done|]. by rewrite IH. Qed.

(** A gap whose samples are absorbed one by one and whose sum lands in the
    band is satisfied at its oldest sample. *)
Lemma absorb_gap (clap : ring) c sp g f bp :
  platform_ok ->
  0 <= sp < clap_sequence_size - 1 ->
  0 <= bp -> bp + Z.of_nat (length g) <= lookahead_limit + 1 ->
  ages_from clap bp g ->
  absorbed_gap 1000 g -> in_band 1000 (total g) ->
  detect_loop (length g + f) sp bp c 0 clap
  = if sp =? 0 then
      match circular_buffer.clear clap_buffer_size 0 clap with
      | None => Undefined
      | Some clap' => Returns (true, clap')
      end
    else detect_loop f (sp - 1) (bp + Z.of_nat (length g)) c 0 clap.
Proof.
  intros Hok Hsp Hbp Hlen Hages (noise & x & -> & Hpos & Hnoise) Hband.
  unfold in_band, max_clap_deviation in *.
  rewrite total_app in Hband. simpl in Hband.
  rewrite length_app in *. simpl in Hlen. simpl length.
  apply ages_from_app in Hages as [Hages Hx].
  apply ages_from_cons in Hx as [Hx _].
  apply Forall_app in Hpos as [Hpos _].
  pose proof (total_nonneg _ Hpos). pose proof (pow2_uint_bits_ge Hok).
  replace (length noise + 1 + f)%nat with (length noise + S f)%nat by lia.
  rewrite absorb_noise by (done || lia).
  rewrite (detect_loop_pass _ _ _ _ _ _ x) by (done || unfold lookahead_limit in *; lia).
  rewrite accumulate_small by (done || lia).
  destruct (Z.ltb_spec (0 + total noise + x) 800); [lia|].
  destruct (Z.ltb_spec 1200 (0 + total noise + x)); [lia|].
  destruct (sp =? 0); [done|]. f_equal. lia.
Qed.

(** A gap whose sum jumps over the band makes the scan fail, as long as the
    sum is representable in the accumulator. *)
Lemma overshoot_gap (clap : ring) c sp g f bp :
  platform_ok ->
  0 <= sp < clap_sequence_size - 1 ->
  0 <= bp -> bp + Z.of_nat (length g) <= lookahead_limit + 1 ->
  ages_from clap bp g ->
  absorbed_gap 1000 g ->
  1000 + max_clap_deviation < total g < 2 ^ uint_bits ->
  detect_loop (length g + f) sp bp c 0 clap = Returns (false, clap).
Proof.
  intros Hok Hsp Hbp Hlen Hages (noise & x & -> & Hpos & Hnoise) Hband.
  unfold max_clap_deviation in *.
  rewrite total_app in Hband. simpl in Hband.
  rewrite length_app in *. simpl in Hlen. simpl length.
  apply ages_from_app in Hages as [Hages Hx].
  apply ages_from_cons in Hx as [Hx _].
  apply Forall_app in Hpos as [Hpos _].
  pose proof (total_nonneg _ Hpos).
  replace (length noise + 1 + f)%nat with (length noise + S f)%nat by lia.
  rewrite absorb_noise by (done || lia).
  rewrite (detect_loop_pass _ _ _ _ _ _ x) by (done || unfold lookahead_limit in *; lia).
  rewrite accumulate_small by (done || lia).
  destruct (Z.ltb_spec (0 + total noise + x) 800); [lia|].
  by destruct (Z.ltb_spec 1200 (0 + total noise + x)); [|lia].
Qed.

(** Once only zero samples are left up to the lookahead limit, a gap that
    is still below its band is never completed. *)
Lemma scan_zeros (clap : ring) c sp f bp cd :
  platform_ok ->
  0 <= sp < clap_sequence_size - 1 ->
  0 <= bp <= lookahead_limit + 1 ->
  (forall i, bp <= i <= lookahead_limit -> clap_at clap i = Some 0) ->
  0 <= cd < 800 ->
  lookahead_limit + 2 - bp <= Z.of_nat f ->
  detect_loop f sp bp c cd clap = Returns (false, clap).
Proof.
  intros Hok Hsp Hbp Hz Hcd Hf. unfold lookahead_limit in *.
  set (n := Z.to_nat (16 - bp)).
  replace f with (length (replicate n 0%Z) + S (f - n - 1))%nat
    by (rewrite length_replicate; lia).
  rewrite absorb_noise; try done.
  - apply detect_loop_beyond. rewrite length_replicate. unfold lookahead_limit. lia.
  - lia.
  - rewrite length_replicate. unfold lookahead_limit. lia.
  - intros i x Hi. apply lookup_replicate in Hi as [-> Hi]. apply Hz. lia.
  - apply Forall_replicate. lia.
  - lia.
  - rewrite total_zeros. lia.
Qed.

(** A scan that reports a match has cleared the history on its way out. *)
Lemma detect_loop_true f : forall sp bp c cd (clap clap' : ring),
  detect_loop f sp bp c cd clap = Returns (true, clap') ->
  circular_buffer.clear clap_buffer_size 0 clap = Some clap'.
Proof.
  induction f as [|f IH]; intros sp bp c cd clap clap' Hret; [done|].
  cbn [detect_loop] in Hret. repeat case_match; try done; eauto.
  by injection Hret as <-.
Qed.

(** A scan that reports no match leaves the history as it was. *)
Lemma detect_loop_false f : forall sp bp c cd (clap clap' : ring),
  detect_loop f sp bp c cd clap = Returns (false, clap') -> clap' = clap.
Proof.
  induction f as [|f IH]; intros sp bp c cd clap clap' Hret; [done|].
  cbn [detect_loop] in Hret. repeat case_match; try done; eauto;
    by injection Hret as <-.
Qed.

(** The third parameter is never read. *)
Lemma detect_loop_can_skip f : forall sp bp c1 c2 cd (clap : ring),
  detect_loop f sp bp c1 cd clap = detect_loop f sp bp c2 cd clap.
Proof.
  induction f as [|f IH]; intros sp bp c1 c2 cd clap; [done|].
  cbn [detect_loop]. repeat case_match; try done; eauto.
Qed.

(** More fuel does not change a result. *)
Lemma detect_loop_more_fuel f : forall sp bp c cd (clap : ring) r,
  detect_loop f sp bp c cd clap = Returns r ->
  detect_loop (S f) sp bp c cd clap = Returns r.
Proof.
  induction f as [|f IH]; intros sp bp c cd clap r Hret; [done|].
  cbn [detect_loop] in Hret. remember (S f) as f' eqn:Hf'.
  cbn [detect_loop]. repeat case_match; try done; eauto.
Qed.

Lemma detect_loop_fuel_le f f' sp bp c cd (clap : ring) r :
  (f <= f')%nat ->
  detect_loop f sp bp c cd clap = Returns r ->
  detect_loop f' sp bp c cd clap = Returns r.
Proof.
  induction 1 as [|f' Hle IH]; [done|]. intros Hret.
  apply detect_loop_more_fuel. by apply IH.
Qed.

(** Each pass returns or moves [buffer_position] up by one, so
    [lookahead_limit + 2 - buffer_position] passes always reach a [return],
    as long as the reads stay inside the arrays. *)
Lemma detect_loop_fuel f : forall sp bp c cd (clap : ring),
  platform_ok ->
  Z.of_nat (length (circular_buffer.data clap)) = clap_buffer_size ->
  0 <= sp < clap_sequence_size - 1 ->
  0 <= bp ->
  (1 <= f)%nat -> lookahead_limit + 2 - bp <= Z.of_nat f ->
  exists b clap', detect_loop f sp bp c cd clap = Returns (b, clap').
Proof.
  induction f as [|f IH]; intros sp bp c cd clap Hok Hlen Hsp Hbp Hf1 Hf; [lia|].
  destruct (Z.le_gt_cases bp lookahead_limit) as [Hin|Hout].
  - destruct (clap_at_Some clap bp Hok Hlen) as [s Hs].
    rewrite (detect_loop_pass _ _ _ _ _ _ s) by done.
    unfold lookahead_limit in *.
    destruct (_ <? 800); [apply IH; (done || lia)|].
    destruct (1200 <? _); [by eauto|].
    destruct (Z.eqb_spec sp 0).
    + rewrite clear_wf by done. eauto.
    + apply IH; (done || lia).
  - rewrite detect_loop_beyond by done. eauto.
Qed.

End matcher_gaps.

(** ** Histories built by insertion *)

Section histories.
Context `{Platform}.

Lemma init_wf buffer_size :
  0 < buffer_size -> ring_wf buffer_size (circular_buffer.init buffer_size).
Proof.
  intros Hb. split; simpl; [lia|]. rewrite length_replicate. lia.
Qed.

Lemma init_subscript buffer_size index :
  pow2_size buffer_size ->
  circular_buffer.subscript buffer_size (circular_buffer.init buffer_size) index
  = Some 0.
Proof.
  intros Hp. rewrite subscript_load by done. simpl.
  apply lookup_replicate_2.
  assert (0 < buffer_size).
  { destruct Hp as (k & Hk & ->). apply Z.pow_pos_nonneg; lia. }
  pose proof (Z.mod_pos_bound (0 - index - 1) buffer_size ltac:(done)). lia.
Qed.

Lemma history_of_spec xs :
  platform_ok ->
  ring_wf clap_buffer_size (history_of xs)
  /\ forall index, 0 <= index < clap_buffer_size ->
       clap_at (history_of xs) index
       = Some (default 0 (rev xs !! Z.to_nat index)).
Proof.
  intros Hok. unfold history_of.
  destruct (insert_all_ages clap_buffer_size xs
              (circular_buffer.init clap_buffer_size)
              (clap_pow2 Hok) (init_wf clap_buffer_size eq_refl))
    as (cb & -> & Hwf & Hages).
  simpl. split; [done|]. intros index Hi. unfold clap_at. rewrite Hages by done.
  destruct (rev xs !! Z.to_nat index); [done|].
  by rewrite init_subscript by (by apply clap_pow2).
Qed.

Lemma history_of_ages xs :
  platform_ok -> Z.of_nat (length xs) <= clap_buffer_size ->
  ages_from (history_of xs) 0 (rev xs).
Proof.
  intros Hok Hlen i x Hi.
  destruct (history_of_spec xs Hok) as [_ Hages].
  apply lookup_lt_Some in Hi as Hlt. rewrite length_rev in Hlt.
  rewrite Hages by lia. rewrite Z.add_0_l, Nat2Z.id, Hi. done.
Qed.

End histories.

(** Two gaps that the scan absorbs sample by sample, each with a sum in its
    band, within the lookahead: a match, and the history is cleared. *)
Lemma two_gaps_match `{Platform} (clap : ring) (c : Z) (g1 g0 : list Z) :
  platform_ok ->
  Z.of_nat (length (circular_buffer.data clap)) = clap_buffer_size ->
  ages_from clap 0 (g1 ++ g0) ->
  absorbed_gap 1000 g1 -> absorbed_gap 1000 g0 ->
  (length g1 + length g0 <= 16)%nat ->
  in_band 1000 (total g1) -> in_band 1000 (total g0) ->
  exists clap', detect_clap_sequence 1 0 c clap = Returns (true, clap')
                /\ all_zero clap'.
Proof.
  intros Hok Hlen Hages Hg1 Hg0 Hn Hb1 Hb0. unfold detect_clap_sequence.
  apply ages_from_app in Hages as [Ha1 Ha0].
  replace scan_fuel
    with (length g1 + (length g0 + (17 - length g1 - length g0)))%nat
    by (unfold scan_fuel; lia).
  rewrite absorb_gap by (done || unfold lookahead_limit; lia).
  change (1 =? 0) with false. cbv iota.
  rewrite absorb_gap by (done || unfold lookahead_limit; lia).
  change (1 - 1 =? 0) with true. cbv iota.
  rewrite clear_wf by done. by eexists.
Qed.


(** ** The properties of the specification *)

(** C1. Exact match: when the samples at ages [0 .. N-2] of the history
    are the target intervals read from the last one down (age [k] holds
    [clap_sequence_timings[N-2-k]]), [detect_clap_sequence(N-2, 0, c)]
    returns [true] for every [c], and all slots of the history are [0]
    afterwards. *)
Theorem exact_match_detected `{Platform} (clap : ring) (c : Z) :
  platform_ok ->
  ring_wf clap_buffer_size clap ->
  (forall k, 0 <= k <= clap_sequence_size - 2 ->
     clap_at clap k = load clap_sequence_timings (clap_sequence_size - 2 - k)) ->
  exists clap',
    detect_clap_sequence (clap_sequence_size - 2) 0 c clap = Returns (true, clap')
    /\ all_zero clap'.
Proof.
  intros Hok [_ Hlen] Hages.
  pose proof (Hages 0 ltac:(done)) as H0. pose proof (Hages 1 ltac:(done)) as H1.
  change (clap_at clap 0 = Some 1000) in H0.
  change (clap_at clap 1 = Some 1000) in H1.
  assert (absorbed_gap 1000 [1000]) as Hgap.
  { exists [], 1000. split; [done|]. split; [by repeat constructor|done]. }
  assert (in_band 1000 (total [1000])) as Hband by (by split).
  unfold detect_clap_sequence, scan_fuel.
  change (clap_sequence_size - 2) with 1.
  rewrite (absorb_gap clap c 1 [1000] 16 0); try done.
  2:{ intros [|i] x; [|done]. by intros [= <-]. }
  change (1 =? 0) with false. cbv iota.
  rewrite (absorb_gap clap c 0 [1000] 15 1); try done.
  2:{ intros [|i] x; [|done]. by intros [= <-]. }
  change (1 - 1 =? 0) with true. cbv iota.
  rewrite clear_wf by done. eexists. split; [done|]. done.
Qed.

(** C5. Reset prevents re-matching: whenever [detect_clap_sequence] returns
    [true], every slot of the history is [0] afterwards, and a second call
    [detect_clap_sequence(N-2, 0, c)] on that cleared history, with nothing
    inserted in between, returns [false] and leaves it cleared. *)
Theorem match_resets_history `{Platform} (sp bp c : Z) (clap clap' : ring) :
  platform_ok ->
  ring_wf clap_buffer_size clap ->
  detect_clap_sequence sp bp c clap = Returns (true, clap') ->
  all_zero clap'
  /\ forall c', detect_clap_sequence (clap_sequence_size - 2) 0 c' clap'
                = Returns (false, clap').
Proof.
  intros Hok [_ Hlen] Hret. apply detect_loop_true in Hret.
  rewrite clear_wf in Hret by done. injection Hret as <-.
  assert (all_zero
    {| circular_buffer.head := circular_buffer.head clap;
       circular_buffer.tail := circular_buffer.tail clap;
       circular_buffer.data := replicate (Z.to_nat clap_buffer_size) 0 |}) as Hz by done.
  split; [done|]. intros c'. unfold detect_clap_sequence.
  apply scan_zeros; try done.
  intros i _. by apply clap_at_all_zero.
Qed.

(** C7. Termination by the fixed lookahead bound: for every history and
    every [sequence_position < clap_sequence_size - 1] the call returns.
    Each pass through the loop either returns or goes on with
    [buffer_position + 1] (in the same activation, or in a recursive one
    with [sequence_position - 1]), and a pass with [buffer_position > 15]
    returns [false]; so [15 + 2 - buffer_position] passes, a number that
    does not depend on the capacity 128, always suffice. *)
Theorem matcher_terminates `{Platform} (sp bp c : Z) (clap : ring) :
  platform_ok ->
  ring_wf clap_buffer_size clap ->
  0 <= sp < clap_sequence_size - 1 ->
  0 <= bp ->
  (exists r,
     detect_clap_sequence sp bp c clap = Returns r
     /\ (forall f cd', (1 <= f)%nat -> lookahead_limit + 2 - bp <= Z.of_nat f ->
           exists r', detect_loop f sp bp c cd' clap = Returns r')
     /\ (forall f, (1 <= f)%nat -> lookahead_limit + 2 - bp <= Z.of_nat f ->
           detect_loop f sp bp c 0 clap = Returns r)
     /\ (lookahead_limit < bp -> r = (false, clap)))
  /\ (forall f cd, bp <= lookahead_limit ->
        (exists r, detect_loop (S f) sp bp c cd clap = Returns r)
        \/ (exists cd', detect_loop (S f) sp bp c cd clap
                        = detect_loop f sp (bp + 1) c cd' clap)
        \/ (0 < sp /\ detect_loop (S f) sp bp c cd clap
                      = detect_loop f (sp - 1) (bp + 1) c 0 clap)).
Proof.
  intros Hok Hwf Hsp Hbp. destruct Hwf as [_ Hlen]. split.
  - assert (forall f cd', (1 <= f)%nat -> lookahead_limit + 2 - bp <= Z.of_nat f ->
              exists r', detect_loop f sp bp c cd' clap = Returns r') as Hall.
    { intros f cd' Hf1 Hf.
      destruct (detect_loop_fuel f sp bp c cd' clap) as (b & clap' & Hr); try done.
      eauto. }
    set (f0 := Z.to_nat (Z.max 1 (lookahead_limit + 2 - bp))).
    destruct (Hall f0 0) as [r Hr]; [lia|lia|].
    exists r. unfold detect_clap_sequence.
    assert (forall f, (1 <= f)%nat -> lookahead_limit + 2 - bp <= Z.of_nat f ->
              detect_loop f sp bp c 0 clap = Returns r) as Hsame.
    { intros f Hf1 Hf. apply (detect_loop_fuel_le f0); [lia|done]. }
    split; [|split; [done|split; [done|]]].
    + apply Hsame; unfold scan_fuel, lookahead_limit; lia.
    + intros Hout. specialize (Hsame 1%nat ltac:(done) ltac:(lia)).
      rewrite detect_loop_beyond in Hsame by done. by injection Hsame.
  - intros f cd Hin.
    destruct (clap_at_Some clap bp Hok Hlen) as [s Hs].
    rewrite (detect_loop_pass _ _ _ _ _ _ s) by done.
    destruct (_ <? 800); [right; left; eauto|].
    destruct (1200 <? _); [left; eauto|].
    destruct (Z.eqb_spec sp 0).
    + left. rewrite clear_wf by done. eauto.
    + right. right. split; [lia|done].
Qed.

(** C8. Determinism and the dead parameter: the result is a function of
    the history and the configured sequence; two calls on the same history
    with the same [sequence_position] and [buffer_position] give the same
    result for any two values of [can_skip]; a call that returns [false]
    leaves the history unchanged, so any number of repeated calls on a
    non-matching history all return [false]. *)
Theorem matcher_deterministic `{Platform} (sp bp c1 c2 : Z) (clap : ring) :
  detect_clap_sequence sp bp c1 clap = detect_clap_sequence sp bp c2 clap
  /\ forall clap',
       detect_clap_sequence sp bp c1 clap = Returns (false, clap') ->
       clap' = clap
       /\ forall n, repeated n sp bp c2 clap
                    = replicate n (Returns (false, clap)).
Proof.
  split; [apply detect_loop_can_skip|].
  intros clap' Hret. apply detect_loop_false in Hret as Heq. subst clap'.
  split; [done|]. induction n as [|n IH]; [done|].
  cbn [repeated replicate].
  unfold detect_clap_sequence in *.
  rewrite (detect_loop_can_skip _ _ _ c2 c1), Hret. by rewrite IH.
Qed.

(** What the scan, which closes a gap at the first sum that reaches the
    band, does on two gaps. With the targets [1000, 1000] and the tolerance
    200, the samples (newest first) 1030, 1020 match and clear the history;
    a newest sample of 1480 does not match; the samples 600, 430, 1020
    match. The samples of the two gaps [g1] (newer) and [g0] match when
    each gap sum is within its band, the sum of all but the oldest sample
    of each gap is below the band, and at most 16 samples are involved; a
    gap whose sum jumps over the band, while still representable in the
    accumulator, does not match. *)
Lemma greedy_scan_on_gaps `{Platform} (clap : ring) (c t1 t0 : Z) :
  platform_ok ->
  ring_wf clap_buffer_size clap ->
  load clap_sequence_timings 1 = Some t1 ->
  load clap_sequence_timings 0 = Some t0 ->
  let matches :=
    exists clap', detect_clap_sequence 1 0 c clap = Returns (true, clap')
                  /\ all_zero clap' in
  let fails := detect_clap_sequence 1 0 c clap = Returns (false, clap) in
  (ages_from clap 0 [1030; 1020] -> matches)
  /\ (ages_from clap 0 [1480] -> fails)
  /\ (ages_from clap 0 [600; 430; 1020] -> matches)
  /\ (forall g1 g0,
        ages_from clap 0 (g1 ++ g0) ->
        absorbed_gap t1 g1 -> absorbed_gap t0 g0 ->
        (length g1 + length g0 <= 16)%nat ->
        in_band t1 (total g1) -> in_band t0 (total g0) -> matches)
  /\ (forall g1,
        ages_from clap 0 g1 -> absorbed_gap t1 g1 -> (length g1 <= 16)%nat ->
        t1 + max_clap_deviation < total g1 < 2 ^ uint_bits -> fails)
  /\ (forall g1 g0,
        ages_from clap 0 (g1 ++ g0) ->
        absorbed_gap t1 g1 -> absorbed_gap t0 g0 ->
        (length g1 + length g0 <= 16)%nat ->
        in_band t1 (total g1) ->
        t0 + max_clap_deviation < total g0 < 2 ^ uint_bits -> fails).
Proof.
  intros Hok [_ Hlen] Ht1 Ht0 matches fails.
  apply timing_lookup in Ht1 as [_ ->]. apply timing_lookup in Ht0 as [_ ->].
  assert (forall g1 g0,
    ages_from clap 0 (g1 ++ g0) ->
    absorbed_gap 1000 g1 -> absorbed_gap 1000 g0 ->
    (length g1 + length g0 <= 16)%nat ->
    in_band 1000 (total g1) -> in_band 1000 (total g0) -> matches) as Hmatch.
  { intros g1 g0 Hages Hg1 Hg0 Hn Hb1 Hb0. unfold matches.
    apply (two_gaps_match clap c g1 g0); assumption. }
  assert (forall g1,
    ages_from clap 0 g1 -> absorbed_gap 1000 g1 -> (length g1 <= 16)%nat ->
    1000 + max_clap_deviation < total g1 < 2 ^ uint_bits -> fails) as Hfail.
  { intros g1 Hages Hg1 Hn Hb1. unfold fails, detect_clap_sequence.
    replace scan_fuel with (length g1 + (17 - length g1))%nat
      by (unfold scan_fuel; lia).
    by rewrite overshoot_gap by (done || unfold lookahead_limit; lia). }
  assert (forall x, 0 <= x -> absorbed_gap 1000 [x]) as Hone.
  { intros x Hx. exists [], x. split; [done|]. split; [by repeat constructor|done]. }
  pose proof (pow2_uint_bits_ge Hok) as Hpow.
  split; [|split; [|split; [|split; [|split]]]]; try done.
  - intros Hages. apply (Hmatch [1030] [1020]); try done.
    + by apply Hone. + by apply Hone. + simpl; lia.
  - intros Hages. apply (Hfail [1480]); try done.
    + by apply Hone. + simpl; lia. + simpl. unfold max_clap_deviation. lia.
  - intros Hages. apply (Hmatch [600; 430] [1020]); try done.
    + exists [600], 430. split; [done|]. split; [by repeat constructor|done].
    + by apply Hone. + simpl; lia.
  - intros g1 g0 Hages Hg1 Hg0 Hn Hb1 Hb0. unfold fails, detect_clap_sequence.
    apply ages_from_app in Hages as [Ha1 Ha0].
    replace scan_fuel
      with (length g1 + (length g0 + (17 - length g1 - length g0)))%nat
      by (unfold scan_fuel; lia).
    rewrite absorb_gap by (done || unfold lookahead_limit; lia).
    change (1 =? 0) with false. cbv iota.
    by rewrite overshoot_gap by (done || unfold lookahead_limit; lia).
Qed.

(** A substitute that the accumulator can represent is rejected: in a
    history whose two newest samples are the targets and whose older
    samples are [0], putting a value below [2 ^ uint_bits] and outside the
    band in the place of either target makes the scan fail. *)
Lemma substitution_rejected_in_range `{Platform} (clap : ring) (c j v : Z) :
  platform_ok ->
  0 <= j <= clap_sequence_size - 2 ->
  (forall k, 0 <= k <= lookahead_limit ->
     clap_at clap k
     = Some (if k =? j then v
             else if k <=? clap_sequence_size - 2 then 1000 else 0)) ->
  0 <= v < 2 ^ uint_bits -> ~ in_band 1000 v ->
  detect_clap_sequence (clap_sequence_size - 2) 0 c clap = Returns (false, clap).
Proof.
  intros Hok Hj Hages Hv Hband.
  unfold in_band, max_clap_deviation, clap_sequence_size, lookahead_limit in *.
  unfold detect_clap_sequence, scan_fuel. change (3 - 2) with 1.
  pose proof (pow2_uint_bits_ge Hok) as Hpow.
  pose proof (Hages 0 ltac:(lia)) as H0. pose proof (Hages 1 ltac:(lia)) as H1.
  assert (forall i, 2 <= i <= lookahead_limit -> clap_at clap i = Some 0) as Hz.
  { unfold lookahead_limit. intros i Hi. rewrite Hages by lia.
    destruct (Z.eqb_spec i j); [lia|]. by destruct (Z.leb_spec i (3 - 2)); [lia|]. }
  assert (j = 0 \/ j = 1) as [-> | ->] by lia; simpl in H0, H1.
  - rewrite (detect_loop_pass _ _ _ _ _ _ v) by done.
    rewrite accumulate_small by (done || lia). rewrite Z.add_0_l.
    destruct (Z.ltb_spec v 800) as [Hlow|Hhigh].
    + rewrite (detect_loop_pass _ _ _ _ _ _ 1000) by done.
      rewrite accumulate_small by (done || lia).
      destruct (Z.ltb_spec (v + 1000) 800); [lia|].
      destruct (Z.ltb_spec 1200 (v + 1000)); [done|].
      change (1 =? 0) with false. cbv iota.
      apply scan_zeros; done || (unfold lookahead_limit; lia).
    + by destruct (Z.ltb_spec 1200 v); [|lia].
  - rewrite (detect_loop_pass _ _ _ _ _ _ 1000) by done.
    rewrite accumulate_small by (done || lia).
    change (0 + 1000 <? 800) with false. change (1200 <? 0 + 1000) with false.
    change (1 =? 0) with false. cbv iota.
    rewrite (detect_loop_pass _ _ _ _ _ _ v) by done.
    rewrite accumulate_small by (done || lia). rewrite Z.add_0_l.
    destruct (Z.ltb_spec v 800) as [Hlow|Hhigh].
    + apply scan_zeros; done || (unfold lookahead_limit; lia).
    + by destruct (Z.ltb_spec 1200 v); [|lia].
Qed.

(** C3 at the failing input. On a board with a 16-bit [unsigned int], the
    history whose two newest samples are 66536 and 1000: the newest sample
    is outside the band 1000 +- 200 and representable in [unsigned long],
    and [detect_clap_sequence(1, 0, 0)] returns [true]. *)
Theorem substitution_wraps_into_band :
  let clap := @history_of avr [1000; 66536] in
  @clap_at avr clap 0 = Some 66536
  /\ @clap_at avr clap 1 = Some 1000
  /\ 0 <= 66536 < 2 ^ ulong_bits
  /\ ~ in_band 1000 66536
  /\ exists clap', @detect_clap_sequence avr (clap_sequence_size - 2) 0 0 clap
                   = Returns (true, clap').
Proof.
  cbv zeta. split; [by vm_compute|]. split; [by vm_compute|].
  split; [unfold ulong_bits; lia|].
  split; [unfold in_band, max_clap_deviation; lia|].
  eexists. vm_compute. reflexivity.
Qed.


(** Every call of [on_sound_detected] that returns has pulsed the LED
    once. *)
Lemma on_sound_detected_led `{Platform} (r : readings) (st st' : sketch) :
  on_sound_detected r st = Returns st' ->
  led_pulses (outputs st') = S (led_pulses (outputs st)).
Proof.
  unfold on_sound_detected. repeat case_match; try done; intros [= <-];
    unfold led_pulses; simpl; rewrite ?List.filter_app, ?length_app; simpl; lia.
Qed.

Lemma trigger_led (st : sketch) :
  led_pulses (outputs (trigger st)) = led_pulses (outputs st).
Proof.
  unfold led_pulses. simpl. rewrite List.filter_app, length_app. simpl. lia.
Qed.

(** From a state whose history satisfies the class invariant, every pass of
    [loop] returns, and the history of the new state satisfies it again. *)
Lemma loop_returns `{Platform} (r : readings) (st : sketch) :
  platform_ok ->
  ring_wf clap_buffer_size (clap st) ->
  exists st', loop r st = Returns st' /\ ring_wf clap_buffer_size (clap st').
Proof.
  intros Hok Hwf. unfold loop.
  destruct (_ && _); [|by exists (trigger st)].
  unfold on_sound_detected. cbn [trigger emit clap last_clap_time claw_state outputs].
  assert (0 < uint_bits /\ clap_buffer_size < 2 ^ uint_bits) as [Hw Hb].
  { pose proof (pow2_uint_bits_ge Hok). destruct Hok. unfold clap_buffer_size. lia. }
  destruct (insert_wf clap_buffer_size
              (ulong (millis_now r - default (millis_static r) (last_clap_time st)))
              (clap st) Hw Hb Hwf) as (clap1 & -> & Hwf1 & _).
  pose proof Hwf1 as [Hhead1 Hlen1].
  assert (is_Some (mapM (clap_at clap1) [0; 1; 2; 3])) as [l ->].
  { destruct (clap_at_Some clap1 0 Hok Hlen1) as [x0 Hx0].
    destruct (clap_at_Some clap1 1 Hok Hlen1) as [x1 Hx1].
    destruct (clap_at_Some clap1 2 Hok Hlen1) as [x2 Hx2].
    destruct (clap_at_Some clap1 3 Hok Hlen1) as [x3 Hx3].
    cbn [mapM]. rewrite Hx0, Hx1, Hx2, Hx3. by eexists. }
  change (uint (clap_sequence_size - 2)) with (uint 1).
  rewrite (uint_small 1) by done.
  destruct (detect_loop_fuel scan_fuel 1 0 0 0 clap1) as (b & clap2 & Hret);
    try done; try (unfold scan_fuel, lookahead_limit; lia).
  unfold detect_clap_sequence. rewrite Hret.
  assert (ring_wf clap_buffer_size clap2) as Hwf2.
  { destruct b.
    - apply detect_loop_true in Hret. rewrite clear_wf in Hret by done.
      injection Hret as <-. split; [done|reflexivity].
    - apply detect_loop_false in Hret. by subst. }
  destruct b; eexists; (split; [done|]); done.
Qed.

Lemma setup_wf : ring_wf clap_buffer_size (clap setup).
Proof. split; [done|reflexivity]. Qed.

(** C6, as the code has it. Admission rule: a pass of [loop] calls
    [on_sound_detected] (seen by its LED pulse) exactly when the pulse
    duration is below [ULTRASONIC_TIMEOUT] and the reading of
    [BROWNOUT_DETECT_PIN] is below [BROWNOUT]; in particular a pulse
    duration at or above the threshold is never admitted, whatever the
    power-rail reading. *)
Theorem admission_rule `{Platform} (r : readings) (st st' : sketch) :
  loop r st = Returns st' ->
  (led_pulses (outputs st') = S (led_pulses (outputs st))
   <-> pulse_duration r < ULTRASONIC_TIMEOUT /\ brownout_sample r < BROWNOUT)
  /\ (led_pulses (outputs st') = led_pulses (outputs st)
      <-> ~ (pulse_duration r < ULTRASONIC_TIMEOUT
             /\ brownout_sample r < BROWNOUT))
  /\ (ULTRASONIC_TIMEOUT <= pulse_duration r -> st' = trigger st).
Proof.
  unfold loop.
  destruct (Z.ltb_spec (pulse_duration r) ULTRASONIC_TIMEOUT);
    destruct (Z.ltb_spec (brownout_sample r) BROWNOUT); cbn [andb]; intros Hret.
  - apply on_sound_detected_led in Hret. rewrite trigger_led in Hret.
    split; [split; [done|by intros _]|]. split; [|lia].
    split; [lia|]. intros Hn. exfalso; apply Hn; done.
  - injection Hret as <-. rewrite trigger_led.
    split; [split; lia|]. split; [|lia]. split; [lia|done].
  - injection Hret as <-. rewrite trigger_led.
    split; [split; lia|]. split; [|done]. split; [lia|done].
  - injection Hret as <-. rewrite trigger_led.
    split; [split; lia|]. split; [|done]. split; [lia|done].
Qed.

(** C9. Totality and age semantics of the ring, for every capacity that is
    a power of two (128 in the sketch): [insert] always succeeds, writes at
    the head cursor, keeps the invariant, and the slot it writes is the one
    of the oldest age [buffer_size - 1]; [clear] always succeeds; for every
    index, [operator[]] reads the in-bounds slot
    [(head - index - 1) mod buffer_size]; and after [clear(0)] or after
    initialisation followed by the insertion of [xs], the read at age
    [i < buffer_size] gives the sample inserted [i] insertions earlier, or
    [0] when fewer than [i + 1] samples were inserted. *)
Theorem ring_total_age_semantics `{Platform} (buffer_size : Z) (cb : ring) :
  pow2_size buffer_size ->
  ring_wf buffer_size cb ->
  (forall element, exists cb',
      circular_buffer.insert buffer_size element cb = Some cb'
      /\ ring_wf buffer_size cb'
      /\ circular_buffer.data cb'
         = <[Z.to_nat (circular_buffer.head cb) := element]>
             (circular_buffer.data cb)
      /\ circular_buffer.slot buffer_size cb (buffer_size - 1)
         = circular_buffer.head cb)
  /\ (forall value, exists cb',
        circular_buffer.clear buffer_size value cb = Some cb'
        /\ ring_wf buffer_size cb'
        /\ circular_buffer.data cb' = replicate (Z.to_nat buffer_size) value)
  /\ (forall index,
        0 <= circular_buffer.slot buffer_size cb index
          < Z.of_nat (length (circular_buffer.data cb))
        /\ circular_buffer.slot buffer_size cb index
           = (circular_buffer.head cb - index - 1) mod buffer_size
        /\ is_Some (circular_buffer.subscript buffer_size cb index))
  /\ (forall xs cb0,
        circular_buffer.clear buffer_size 0 cb = Some cb0
        \/ cb0 = circular_buffer.init buffer_size ->
        exists cb',
          insert_all buffer_size xs cb0 = Some cb'
          /\ ring_wf buffer_size cb'
          /\ forall index, 0 <= index < buffer_size ->
               circular_buffer.subscript buffer_size cb' index
               = Some (default 0 (rev xs !! Z.to_nat index))).
Proof.
  intros Hp Hwf.
  assert (0 < uint_bits /\ 0 < buffer_size < 2 ^ uint_bits) as (Hw & Hb0 & Hb).
  { destruct Hp as (k & Hk & ->). split; [lia|]. split.
    - apply Z.pow_pos_nonneg; lia.
    - apply Z.pow_lt_mono_r; lia. }
  pose proof Hwf as [Hhead Hlen].
  split; [|split; [|split]].
  - intros element.
    destruct (insert_wf buffer_size element cb Hw Hb Hwf)
      as (cb' & Hins & Hwf' & Hdata & _).
    exists cb'. split; [done|]. split; [done|]. split; [done|].
    rewrite slot_mod by done.
    replace (circular_buffer.head cb - (buffer_size - 1) - 1)
      with (circular_buffer.head cb + (-1) * buffer_size) by lia.
    rewrite Z_mod_plus_full. apply Z.mod_small. lia.
  - intros value. rewrite clear_wf by done. eexists. split; [done|].
    split; [|done]. split; simpl; [done|]. rewrite length_replicate. lia.
  - intros index. pose proof (slot_range buffer_size cb index Hp) as Hr.
    split; [lia|]. split; [by apply slot_mod|].
    apply load_Some. lia.
  - intros xs cb0 Hcb0.
    assert (ring_wf buffer_size cb0
            /\ forall index,
                 circular_buffer.subscript buffer_size cb0 index = Some 0)
      as [Hwf0 Hzero].
    { destruct Hcb0 as [Hclear| ->].
      - rewrite clear_wf in Hclear by done. injection Hclear as <-. split.
        + split; simpl; [done|]. rewrite length_replicate. lia.
        + intros index. rewrite subscript_load by done. simpl.
          apply lookup_replicate_2.
          pose proof (Z.mod_pos_bound (circular_buffer.head cb - index - 1)
                        buffer_size Hb0). lia.
      - split; [by apply init_wf|]. intros index. by apply init_subscript. }
    destruct (insert_all_ages buffer_size xs cb0 Hp Hwf0)
      as (cb' & Hall & Hwf' & Hages).
    exists cb'. split; [done|]. split; [done|]. intros index Hi.
    rewrite Hages by done. destruct (rev xs !! Z.to_nat index); [done|].
    by rewrite Hzero.
Qed.

(** The mask needs the power of two: with a capacity of 3 the read at age 1
    after three insertions gives the newest sample, not the one before. *)
Remark mask_needs_power_of_two :
  exists cb,
    @insert_all avr 3 [1; 2; 3] (circular_buffer.init 3) = Some cb
    /\ ring_wf 3 cb
    /\ @circular_buffer.subscript avr 3 cb 0 = Some 3
    /\ @circular_buffer.subscript avr 3 cb 1 = Some 3.
Proof.
  eexists. split; [by vm_compute|]. split; [|split; by vm_compute].
  split; simpl; lia.
Qed.

(** C10. The gap sum is truncated to the width of [unsigned int]: the
    accumulation is modulo [2 ^ uint_bits]; so, when [unsigned int] is
    narrower than [unsigned long] (16 against 32 bits on AVR), the single
    interval [target + 2 ^ uint_bits] is a valid sample, lies above
    [target + max_clap_deviation], and is accepted as the newest gap: with
    the target as the older sample, the matcher reports a match that the
    band in exact arithmetic rejects. *)
Theorem accumulator_truncates `{Platform} (c target : Z) :
  platform_ok ->
  load clap_sequence_timings (clap_sequence_size - 2) = Some target ->
  (forall cd s, accumulate cd s = (cd + s) mod 2 ^ uint_bits)
  /\ (uint_bits < ulong_bits ->
      let s := target + 2 ^ uint_bits in
      let clap := history_of [target; s] in
      clap_at clap 0 = Some s
      /\ 0 <= s < 2 ^ ulong_bits
      /\ target + max_clap_deviation < s
      /\ ~ in_band target s
      /\ exists clap',
           detect_clap_sequence (clap_sequence_size - 2) 0 c clap
           = Returns (true, clap')).
Proof.
  intros Hok Ht. apply timing_lookup in Ht as [_ ->].
  split; [intros cd s; by apply accumulate_mod|].
  intros Hnarrow s clap.
  pose proof (pow2_uint_bits_ge Hok) as Hge.
  assert (2 ^ uint_bits <= 2 ^ 31) as Hle.
  { apply Z.pow_le_mono_r; unfold ulong_bits in *; lia. }
  destruct (history_of_spec [1000; s] Hok) as [[_ Hlen] Hages].
  pose proof (Hages 0 ltac:(done)) as H0. pose proof (Hages 1 ltac:(done)) as H1.
  simpl in H0, H1. fold clap in H0, H1, Hlen.
  unfold in_band, max_clap_deviation, ulong_bits. subst s.
  split; [done|]. split; [lia|]. split; [lia|]. split; [lia|].
  unfold detect_clap_sequence, scan_fuel. change (clap_sequence_size - 2) with 1.
  rewrite (detect_loop_pass _ _ _ _ _ _ (1000 + 2 ^ uint_bits)) by done.
  assert (accumulate 0 (1000 + 2 ^ uint_bits) = 1000) as ->.
  { rewrite accumulate_mod by done.
    replace (0 + (1000 + 2 ^ uint_bits)) with (1000 + 1 * 2 ^ uint_bits) by lia.
    rewrite Z_mod_plus_full. apply Z.mod_small. lia. }
  change (1000 <? 800) with false. change (1200 <? 1000) with false.
  change (1 =? 0) with false. cbv iota.
  rewrite (detect_loop_pass _ _ _ _ _ _ 1000) by done.
  rewrite accumulate_small by (done || lia).
  change (0 + 1000 <? 800) with false. change (1200 <? 0 + 1000) with false.
  change (1 - 1 =? 0) with true. cbv iota.
  rewrite clear_wf by done. by eexists.
Qed.

(** ** The properties at concrete inputs *)

Lemma avr_ok : @platform_ok avr.
Proof. unfold platform_ok, ulong_bits. simpl. lia. Qed.

Lemma history_wf (xs : list Z) : ring_wf clap_buffer_size (@history_of avr xs).
Proof. apply (@history_of_spec avr xs avr_ok). Qed.

(** C2 at the failing input. Claps at 0, 1050 and 2150 ms with a stray
    sound at 1250 ms: the samples are 900, 200, 1050 (newest first), the
    gap sums 900 + 200 = 1100 and 1050 are both within 1000 +- 200, three
    samples are well inside the lookahead, and the matcher returns
    [false]: it closes the newer gap at 900 and then sees
    200 + 1050 = 1250 for the older one. *)
Theorem stray_sound_breaks_match :
  let clap := @history_of avr [1050; 200; 900] in
  @ages_from avr clap 0 ([900; 200] ++ [1050])
  /\ Forall (fun s => 0 <= s) ([900; 200] ++ [1050])
  /\ in_band 1000 (total [900; 200])
  /\ in_band 1000 (total [1050])
  /\ @detect_clap_sequence avr 1 0 0 clap = Returns (false, clap).
Proof.
  cbv zeta. split.
  { apply (@history_of_ages avr [1050; 200; 900] avr_ok). simpl. unfold clap_buffer_size. lia. }
  split; [repeat constructor; lia|].
  split; [unfold in_band, max_clap_deviation; simpl; lia|].
  split; [unfold in_band, max_clap_deviation; simpl; lia|].
  vm_compute. reflexivity.
Qed.

(** The lookahead limit, for its part, cuts absorption short: sixteen samples of
    55 ms (sum 880) in front of a sample of 1000 ms are two gaps within the
    band, and the matcher returns [false] at [buffer_position = 16]. *)
Remark lookahead_cuts_absorption :
  let clap := @history_of avr (1000 :: replicate 16 55) in
  in_band 1000 (total (replicate 16 55))
  /\ in_band 1000 (total [1000])
  /\ @detect_clap_sequence avr 1 0 0 clap = Returns (false, clap).
Proof.
  cbv zeta. split; [unfold in_band, max_clap_deviation; simpl; lia|].
  split; [unfold in_band, max_clap_deviation; simpl; lia|].
  vm_compute. reflexivity.
Qed.

(** C6 as stated fails. A pulse of 1000 us with a reading of 500 on the
    brownout pin is admitted, although the reading is not above the
    threshold 720. *)
Lemma admission_counterexample :
  let r := {| pulse_duration := 1000; brownout_sample := 500;
              millis_static := 0; millis_now := 0 |} in
  exists st',
    @loop avr r setup = Returns st'
    /\ led_pulses (outputs st') = S (led_pulses (outputs setup))
    /\ ~ (pulse_duration r < ULTRASONIC_TIMEOUT
          /\ BROWNOUT < brownout_sample r).
Proof.
  cbv zeta. eexists. split; [vm_compute; reflexivity|].
  split; [reflexivity|]. unfold BROWNOUT. simpl. lia.
Qed.

(** C1 on an AVR board, for the history 1000, 1000. *)
Lemma exact_match_detected_witness :
  @platform_ok avr
  /\ exists clap',
       @detect_clap_sequence avr (clap_sequence_size - 2) 0 0
         (@history_of avr [1000; 1000]) = Returns (true, clap')
       /\ all_zero clap'.
Proof.
  split; [unfold platform_ok, ulong_bits; simpl; lia|].
  apply (@exact_match_detected avr (@history_of avr [1000; 1000]) 0).
  - unfold platform_ok, ulong_bits. simpl. lia.
  - apply history_wf.
  - intros k Hk. unfold clap_sequence_size in Hk.
    assert (k = 0 \/ k = 1) as [-> | ->] by lia; vm_compute; reflexivity.
Defined.

(** On an AVR board: claps at 0, 1020 and 2050 ms and a stray sound at
    1450 ms. *)
Lemma greedy_scan_on_gaps_witness :
  @ages_from avr (@history_of avr [1020; 430; 600]) 0 [600; 430; 1020]
  /\ exists clap',
       @detect_clap_sequence avr 1 0 0 (@history_of avr [1020; 430; 600])
       = Returns (true, clap')
       /\ all_zero clap'.
Proof.
  assert (@ages_from avr (@history_of avr [1020; 430; 600]) 0 [600; 430; 1020])
    as Hages.
  { apply (@history_of_ages avr [1020; 430; 600] avr_ok). simpl.
    unfold clap_buffer_size. lia. }
  split; [exact Hages|].
  assert (@platform_ok avr) as Hok
    by (unfold platform_ok, ulong_bits; simpl; lia).
  assert (ring_wf clap_buffer_size (@history_of avr [1020; 430; 600])) as Hwf.
  { apply history_wf. }
  destruct (@greedy_scan_on_gaps avr (@history_of avr [1020; 430; 600]) 0 1000 1000
              Hok Hwf eq_refl eq_refl) as (_ & _ & Hthird & _).
  exact (Hthird Hages).
Defined.


(** C5 on an AVR board, after the match on the history 1000, 1000. *)
Lemma match_resets_history_witness :
  let cleared := {| circular_buffer.head := 2; circular_buffer.tail := 0;
                    circular_buffer.data := replicate 128 0 |} in
  @detect_clap_sequence avr 1 0 0 (@history_of avr [1000; 1000])
  = Returns (true, cleared)
  /\ all_zero cleared
  /\ forall c', @detect_clap_sequence avr (clap_sequence_size - 2) 0 c' cleared
                = Returns (false, cleared).
Proof.
  cbv zeta.
  assert (@detect_clap_sequence avr 1 0 0 (@history_of avr [1000; 1000])
          = Returns (true, {| circular_buffer.head := 2; circular_buffer.tail := 0;
                              circular_buffer.data := replicate 128 0 |})) as Hret
    by (vm_compute; reflexivity).
  split; [exact Hret|].
  apply (@match_resets_history avr 1 0 0 (@history_of avr [1000; 1000])).
  - unfold platform_ok, ulong_bits. simpl. lia.
  - apply history_wf.
  - exact Hret.
Defined.

(** C6 on an AVR board: a short pulse with a reading of 500, right after
    [setup()]. *)
Lemma admission_rule_witness :
  let r := {| pulse_duration := 1000; brownout_sample := 500;
              millis_static := 0; millis_now := 0 |} in
  let st' := match @loop avr r setup with Returns s => s | _ => setup end in
  @loop avr r setup = Returns st'
  /\ (led_pulses (outputs st') = S (led_pulses (outputs setup))
      <-> pulse_duration r < ULTRASONIC_TIMEOUT
          /\ brownout_sample r < BROWNOUT).
Proof.
  cbv zeta.
  assert (@loop avr {| pulse_duration := 1000; brownout_sample := 500;
                       millis_static := 0; millis_now := 0 |} setup
          = Returns (match @loop avr {| pulse_duration := 1000;
                                        brownout_sample := 500;
                                        millis_static := 0; millis_now := 0 |}
                                 setup with Returns s => s | _ => setup end))
    as Hret by (vm_compute; reflexivity).
  split; [exact Hret|].
  exact (proj1 (@admission_rule avr _ _ _ Hret)).
Defined.

(** C7 on an AVR board, for the history 1020, 1480. *)
Lemma matcher_terminates_witness :
  exists r, @detect_clap_sequence avr 1 0 0 (@history_of avr [1020; 1480])
            = Returns r.
Proof.
  destruct (@matcher_terminates avr 1 0 0 (@history_of avr [1020; 1480]))
    as [(r & Hr & _) _].
  - unfold platform_ok, ulong_bits. simpl. lia.
  - apply history_wf.
  - unfold clap_sequence_size. lia.
  - lia.
  - exists r. exact Hr.
Defined.

(** C9 on an AVR board: the capacity 128 and three insertions into the
    history as declared. *)
Lemma ring_total_age_semantics_witness :
  @pow2_size avr clap_buffer_size
  /\ ring_wf clap_buffer_size (circular_buffer.init clap_buffer_size)
  /\ exists cb',
       @insert_all avr clap_buffer_size [10; 20; 30]
         (circular_buffer.init clap_buffer_size) = Some cb'
       /\ forall index, 0 <= index < clap_buffer_size ->
            @circular_buffer.subscript avr clap_buffer_size cb' index
            = Some (default 0 (rev [10; 20; 30] !! Z.to_nat index)).
Proof.
  assert (@pow2_size avr clap_buffer_size) as Hp.
  { exists 7. split; [simpl; lia|reflexivity]. }
  assert (ring_wf clap_buffer_size (circular_buffer.init clap_buffer_size)) as Hwf.
  { split; [simpl; unfold clap_buffer_size; lia|reflexivity]. }
  split; [exact Hp|]. split; [exact Hwf|].
  destruct (@ring_total_age_semantics avr clap_buffer_size
              (circular_buffer.init clap_buffer_size) Hp Hwf)
    as (_ & _ & _ & Hages).
  destruct (Hages [10; 20; 30] (circular_buffer.init clap_buffer_size)
              (or_intror eq_refl)) as (cb' & Hall & _ & Hread).
  exists cb'. split; [exact Hall|exact Hread].
Defined.

(** C10 on an AVR board: the interval 1000 + 65536 ms. *)
Lemma accumulator_truncates_witness :
  1000 + max_clap_deviation < 1000 + 2 ^ 16
  /\ exists clap',
       @detect_clap_sequence avr (clap_sequence_size - 2) 0 0
         (@history_of avr [1000; 1000 + 2 ^ 16]) = Returns (true, clap').
Proof.
  destruct (@accumulator_truncates avr 0 1000) as [_ Hwrap].
  - unfold platform_ok, ulong_bits. simpl. lia.
  - reflexivity.
  - destruct Hwrap as (_ & _ & Habove & _ & Hmatch).
    + unfold ulong_bits. simpl. lia.
    + split; [exact Habove|exact Hmatch].
Defined.

(** * Further properties of the sketch *)

(** ** One pass of the sketch *)

Section passes.
Context `{Platform}.

(** The call, as the scan it starts. *)
Lemma detect_unfold sp bp c (clap : ring) :
  detect_clap_sequence sp bp c clap = detect_loop scan_fuel sp bp c 0 clap.
Proof. reflexivity. Qed.

Lemma insert_ages element (clap clap1 : ring) :
  platform_ok -> ring_wf clap_buffer_size clap ->
  circular_buffer.insert clap_buffer_size element clap = Some clap1 ->
  ring_wf clap_buffer_size clap1
  /\ clap_at clap1 0 = Some element
  /\ forall index, 0 <= index -> index + 1 < clap_buffer_size ->
       clap_at clap1 (index + 1) = clap_at clap index.
Proof.
  intros Hok Hwf Hins. pose proof (clap_pow2 Hok) as Hp.
  assert (0 < uint_bits /\ clap_buffer_size < 2 ^ uint_bits) as [Hw Hb].
  { pose proof (pow2_uint_bits_ge Hok). destruct Hok. unfold clap_buffer_size. lia. }
  destruct (insert_wf clap_buffer_size element clap Hw Hb Hwf)
    as (cb & Heq & Hwf1 & _).
  rewrite Hins in Heq. injection Heq as <-.
  split; [done|]. split.
  - by apply (subscript_insert_0 clap_buffer_size element clap clap1).
  - intros index H0 H1.
    by apply (subscript_insert_S clap_buffer_size element clap clap1).
Qed.

(** One event on a cleared history is never a match, whatever its
    interval. *)
Lemma event_on_cleared_history (clap clap1 : ring) (x c : Z) :
  platform_ok -> ring_wf clap_buffer_size clap -> all_zero clap ->
  circular_buffer.insert clap_buffer_size x clap = Some clap1 ->
  detect_clap_sequence 1 0 c clap1 = Returns (false, clap1).
Proof.
  intros Hok Hwf Hz Hins.
  destruct (insert_ages x clap clap1 Hok Hwf Hins) as (Hwf1 & H0 & Hold).
  assert (forall i, 1 <= i <= lookahead_limit -> clap_at clap1 i = Some 0) as Hzeros.
  { unfold lookahead_limit. intros i Hi. replace i with ((i - 1) + 1) by lia.
    rewrite Hold by (unfold clap_buffer_size; lia). by apply clap_at_all_zero. }
  rewrite detect_unfold. unfold scan_fuel.
  rewrite (detect_loop_pass _ _ _ _ _ _ x) by done.
  assert (0 <= accumulate 0 x) as Hacc.
  { unfold accumulate. apply uint_range. destruct Hok. lia. }
  destruct (Z.ltb_spec (accumulate 0 x) 800).
  - apply scan_zeros; try done; try (unfold lookahead_limit; lia);
      intros i Hi; apply Hzeros; unfold lookahead_limit in *; lia.
  - destruct (1200 <? accumulate 0 x); [done|].
    change (1 =? 0) with false. cbv iota.
    apply scan_zeros; try done; try (unfold lookahead_limit; lia);
      intros i Hi; apply Hzeros; unfold lookahead_limit in *; lia.
Qed.

(** What one pass of [loop] does to a state whose history satisfies the
    class invariant. *)
Lemma loop_pass_spec (r : readings) (st : sketch) :
  platform_ok ->
  ring_wf clap_buffer_size (clap st) ->
  exists st', loop r st = Returns st'
    /\ ring_wf clap_buffer_size (clap st')
    /\ (admitted r = false ->
          st' = trigger st)
    /\ (admitted r = true ->
          exists clap1 b,
            circular_buffer.insert clap_buffer_size
              (ulong (millis_now r
                      - default (millis_static r) (last_clap_time st)))
              (clap st) = Some clap1
            /\ detect_clap_sequence 1 0 0 clap1 = Returns (b, clap st')
            /\ last_clap_time st' = Some (millis_now r)
            /\ claw_state st' = xorb b (claw_state st)
            /\ outputs st'
               = outputs (trigger st)
                 ++ (if b then [ServoWrite (if negb (claw_state st)
                                            then SERVO_MIN_ANGLE
                                            else SERVO_MAX_ANGLE)]
                     else [])
                 ++ [DigitalWrite LED_PIN true; DigitalWrite LED_PIN false]).
Proof.
  intros Hok Hwf. unfold loop. fold (admitted r).
  destruct (admitted r); cycle 1.
  { exists (trigger st). split; [done|]. split; [done|]. split; [done|]. done. }
  unfold on_sound_detected.
  cbn [trigger emit clap last_clap_time claw_state outputs].
  assert (0 < uint_bits /\ clap_buffer_size < 2 ^ uint_bits) as [Hw Hb].
  { pose proof (pow2_uint_bits_ge Hok). destruct Hok. unfold clap_buffer_size. lia. }
  destruct (insert_wf clap_buffer_size
              (ulong (millis_now r - default (millis_static r) (last_clap_time st)))
              (clap st) Hw Hb Hwf) as (clap1 & Hins & Hwf1 & _).
  rewrite Hins.
  pose proof Hwf1 as [Hhead1 Hlen1].
  assert (is_Some (mapM (clap_at clap1) [0; 1; 2; 3])) as [l ->].
  { destruct (clap_at_Some clap1 0 Hok Hlen1) as [x0 Hx0].
    destruct (clap_at_Some clap1 1 Hok Hlen1) as [x1 Hx1].
    destruct (clap_at_Some clap1 2 Hok Hlen1) as [x2 Hx2].
    destruct (clap_at_Some clap1 3 Hok Hlen1) as [x3 Hx3].
    cbn [mapM]. rewrite Hx0, Hx1, Hx2, Hx3. by eexists. }
  change (uint (clap_sequence_size - 2)) with (uint 1).
  rewrite (uint_small 1) by done.
  destruct (detect_loop_fuel scan_fuel 1 0 0 0 clap1) as (b & clap2 & Hret);
    try done; try (unfold scan_fuel, lookahead_limit; lia).
  rewrite detect_unfold, Hret.
  assert (ring_wf clap_buffer_size clap2) as Hwf2.
  { destruct b.
    - apply detect_loop_true in Hret. rewrite clear_wf in Hret by done.
      injection Hret as <-. split; [done|reflexivity].
    - apply detect_loop_false in Hret. by subst. }
  eexists. split; [done|].
  split; [by destruct b|]. split; [done|]. intros _.
  exists clap1, b. split; [done|].
  destruct b;
    cbn [emit on_sequence_detected clap last_clap_time claw_state outputs];
    rewrite <- ?app_assoc; (split; [exact Hret|]); (split; [reflexivity|]);
    (split; [by destruct (claw_state st)|]); reflexivity.
Qed.

End passes.

(** ** Runs of the sketch *)

(** X1. No pass of the sketch ever reads or writes outside an array: from
    a state whose history satisfies the class invariant, the passes for
    any readings all return, and the invariant holds again at the end. *)
Theorem sketch_never_undefined `{Platform} (rs : list readings) (st : sketch) :
  platform_ok ->
  ring_wf clap_buffer_size (clap st) ->
  exists st', loop_passes rs st = Returns st'
              /\ ring_wf clap_buffer_size (clap st').
Proof.
  intros Hok. revert st. induction rs as [|r rs IH]; intros st Hwf.
  - by exists st.
  - destruct (loop_pass_spec r st Hok Hwf) as (st1 & Hpass & Hwf1 & _).
    cbn [loop_passes]. rewrite Hpass. by apply IH.
Qed.


Lemma servo_angles_app (o1 o2 : list output) :
  servo_angles (o1 ++ o2) = servo_angles o1 ++ servo_angles o2.
Proof. apply omap_app. Qed.

Lemma servo_angles_servo (a : Z) : servo_angles [ServoWrite a] = [a].
Proof. reflexivity. Qed.

Lemma servo_angles_led :
  servo_angles [DigitalWrite LED_PIN true; DigitalWrite LED_PIN false] = [].
Proof. reflexivity. Qed.

Lemma servo_angles_trigger (st : sketch) :
  servo_angles (outputs (trigger st)) = servo_angles (outputs st).
Proof.
  unfold trigger, emit. simpl. rewrite servo_angles_app. simpl.
  by rewrite app_nil_r.
Qed.

(** X3. The claw toggles at most once per two admitted events: over any
    run from a cleared history, twice the number of servo writes is at
    most the number of admitted readings. *)
Theorem toggle_rate_limit `{Platform} (rs : list readings) (st st' : sketch) :
  platform_ok ->
  ring_wf clap_buffer_size (clap st) ->
  all_zero (clap st) ->
  loop_passes rs st = Returns st' ->
  (2 * length (servo_angles (outputs st'))
   <= 2 * length (servo_angles (outputs st))
      + length (List.filter admitted rs))%nat.
Proof.
  intros Hok Hwf Hz Hrun.
  assert (forall rs st st',
    ring_wf clap_buffer_size (clap st) ->
    loop_passes rs st = Returns st' ->
    (2 * length (servo_angles (outputs st'))
     <= 2 * length (servo_angles (outputs st))
        + length (List.filter admitted rs) + 1)%nat
    /\ (all_zero (clap st) ->
        (2 * length (servo_angles (outputs st'))
         <= 2 * length (servo_angles (outputs st))
            + length (List.filter admitted rs))%nat)) as Hinv.
  { clear -Hok. intros rs. induction rs as [|r rs IH]; intros st st' Hwf Hrun.
    - injection Hrun as <-. simpl. lia.
    - cbn [loop_passes] in Hrun.
      destruct (loop_pass_spec r st Hok Hwf) as (st1 & Hpass & Hwf1 & Hrej & Hadm).
      rewrite Hpass in Hrun.
      destruct (IH st1 st' Hwf1 Hrun) as [Hany Hzero].
      cbn [List.filter]. destruct (admitted r).
      + destruct (Hadm eq_refl) as (clap1 & b & Hins & Hdet & _ & _ & Hout).
        rewrite Hout, !servo_angles_app, servo_angles_trigger,
          servo_angles_led, app_nil_r in Hany, Hzero.
        destruct b.
        * assert (all_zero (clap st1)) as Hz1.
          { destruct (insert_ages _ _ _ Hok Hwf Hins) as ([_ Hlen1] & _).
            rewrite detect_unfold in Hdet. apply detect_loop_true in Hdet.
            rewrite clear_wf in Hdet by done. by injection Hdet as <-. }
          specialize (Hzero Hz1).
          rewrite servo_angles_servo, length_app in Hany, Hzero.
          cbn [length] in *. split; [lia|]. intros Hz.
          rewrite (event_on_cleared_history (clap st) clap1 _ 0 Hok Hwf Hz Hins)
            in Hdet. done.
        * change (servo_angles []) with (@nil Z) in Hany.
          rewrite app_nil_r in Hany. cbn [length]. split; lia.
      + rewrite (Hrej eq_refl) in *. rewrite servo_angles_trigger in *.
        split; [lia|]. intros Hz. apply Hzero. done. }
  by apply (Hinv rs st st' Hwf Hrun).
Qed.

(** X4. The servo follows the claw state: after [setup()] the last angle
    written to the servo is the one of the claw state; a run of passes
    from any state where this holds ends in a state where it holds; so it
    holds after every run that starts at [setup()]. *)
Theorem servo_follows_claw `{Platform} (rs : list readings) (st st' : sketch) :
  platform_ok ->
  servo_at_claw setup
  /\ (ring_wf clap_buffer_size (clap st) -> servo_at_claw st ->
      loop_passes rs st = Returns st' -> servo_at_claw st')
  /\ (loop_passes rs setup = Returns st' -> servo_at_claw st').
Proof.
  intros Hok.
  assert (forall rs st st',
    ring_wf clap_buffer_size (clap st) -> servo_at_claw st ->
    loop_passes rs st = Returns st' -> servo_at_claw st') as Hkeep.
  { clear -Hok. unfold servo_at_claw.
    intros rs. induction rs as [|r rs IH]; intros st st' Hwf Hlast Hrun.
    - by injection Hrun as <-.
    - cbn [loop_passes] in Hrun.
      destruct (loop_pass_spec r st Hok Hwf) as (st1 & Hpass & Hwf1 & Hrej & Hadm).
      rewrite Hpass in Hrun. apply (IH st1); try done.
      destruct (admitted r).
      + destruct (Hadm eq_refl) as (clap1 & b & _ & _ & _ & Hclaw & Hout).
        rewrite Hout, Hclaw, !servo_angles_app, servo_angles_trigger,
          servo_angles_led, app_nil_r.
        destruct b.
        * rewrite servo_angles_servo, last_snoc. by destruct (claw_state st).
        * change (servo_angles []) with (@nil Z). by rewrite app_nil_r.
      + rewrite (Hrej eq_refl), servo_angles_trigger. done. }
  assert (servo_at_claw setup) as Hsetup by reflexivity.
  split; [exact Hsetup|]. split; [apply Hkeep|].
  apply (Hkeep rs setup st'); [apply setup_wf|exact Hsetup].
Qed.

Lemma ulong_small x : 0 <= x < 2 ^ ulong_bits -> ulong x = x.
Proof. intros Hx. unfold ulong, wrap. by apply Z.mod_small. Qed.

(** X5. Three claps toggle the claw exactly once: two admitted events in a
    row whose intervals are both within 1000 +- 200 ms change the claw
    state once over the two passes, whatever the older history. (If the
    first event completes a pattern with the older history, the second
    one starts afresh and does not toggle.) *)
Theorem three_claps_toggle_once `{Platform} (r1 r2 : readings) (st : sketch)
    (t : Z) :
  platform_ok ->
  ring_wf clap_buffer_size (clap st) ->
  last_clap_time st = Some t ->
  admitted r1 = true -> admitted r2 = true ->
  in_band 1000 (ulong (millis_now r1 - t)) ->
  in_band 1000 (ulong (millis_now r2 - millis_now r1)) ->
  exists st2,
    loop_passes [r1; r2] st = Returns st2
    /\ claw_state st2 = negb (claw_state st)
    /\ length (servo_angles (outputs st2))
       = S (length (servo_angles (outputs st))).
Proof.
  intros Hok Hwf Hlast Ha1 Ha2 Hb1 Hb2.
  destruct (loop_pass_spec r1 st Hok Hwf) as (st1 & Hpass1 & Hwf1 & _ & Hadm1).
  destruct (Hadm1 Ha1) as (clap1 & b1 & Hins1 & Hdet1 & Hlast1 & Hclaw1 & Hout1).
  destruct (loop_pass_spec r2 st1 Hok Hwf1) as (st2 & Hpass2 & Hwf2 & _ & Hadm2).
  destruct (Hadm2 Ha2) as (clap2 & b2 & Hins2 & Hdet2 & _ & Hclaw2 & Hout2).
  exists st2. cbn [loop_passes]. rewrite Hpass1, Hpass2. split; [done|].
  rewrite Hlast in Hins1. rewrite Hlast1 in Hins2.
  cbn [default from_option id] in Hins1, Hins2.
  destruct (insert_ages _ _ _ Hok Hwf Hins1) as (Hwfc1 & Hage1 & _).
  assert (b2 = negb b1) as ->.
  { destruct b1.
    - assert (all_zero (clap st1)) as Hz1.
      { rewrite detect_unfold in Hdet1. apply detect_loop_true in Hdet1.
        rewrite clear_wf in Hdet1 by (by destruct Hwfc1).
        by injection Hdet1 as <-. }
      rewrite (event_on_cleared_history (clap st1) clap2 _ 0 Hok Hwf1 Hz1 Hins2)
        in Hdet2. by injection Hdet2 as <- _.
    - rewrite detect_unfold in Hdet1. apply detect_loop_false in Hdet1 as Heq. rewrite Heq in *.
      destruct (insert_ages _ _ _ Hok Hwfc1 Hins2) as (Hwfc2 & Hage2 & Hold2).
      destruct (two_gaps_match clap2 0
                  [ulong (millis_now r2 - millis_now r1)]
                  [ulong (millis_now r1 - t)]) as (clap' & Hret & _);
        try done.
      + by destruct Hwfc2.
      + intros [|[|i]] x; simpl; intros [= <-]; [done|].
        rewrite <- Hage1. exact (Hold2 0 ltac:(done) ltac:(done)).
      + exists [], (ulong (millis_now r2 - millis_now r1)).
        split; [done|]. split; [|done]. repeat constructor.
        unfold in_band, max_clap_deviation in Hb2. lia.
      + exists [], (ulong (millis_now r1 - t)).
        split; [done|]. split; [|done]. repeat constructor.
        unfold in_band, max_clap_deviation in Hb1. lia.
      + simpl. lia.
      + simpl. by rewrite Z.add_0_r.
      + simpl. by rewrite Z.add_0_r.
      + rewrite Hret in Hdet2. by injection Hdet2 as <- _. }
  rewrite Hclaw2, Hclaw1, Hout2.
  rewrite !servo_angles_app, servo_angles_trigger, Hout1, !servo_angles_app,
    servo_angles_trigger, !servo_angles_led, !app_nil_r.
  destruct b1, (claw_state st); cbn [negb xorb];
    rewrite ?servo_angles_servo; change (servo_angles []) with (@nil Z);
    rewrite ?app_nil_r, ?length_app; cbn [length]; split; (reflexivity || lia).
Qed.

(** X6. The interval survives the rollover of [millis()]: when the clock
    reads [t + d] modulo [2 ^ 32] at an admitted event, [d] ms after the
    last one at [t], the pass inserts exactly [d] into the history, runs
    the matcher on the history with [d] as its newest sample, keeps the
    history the matcher returns, toggles the claw exactly when the matcher
    reports a match, and remembers the new clock reading. *)
Theorem interval_survives_rollover `{Platform} (r : readings) (st : sketch)
    (t d : Z) :
  platform_ok ->
  ring_wf clap_buffer_size (clap st) ->
  last_clap_time st = Some t ->
  admitted r = true ->
  0 <= d < 2 ^ ulong_bits ->
  millis_now r = ulong (t + d) ->
  exists st' clap1 b,
    loop r st = Returns st'
    /\ circular_buffer.insert clap_buffer_size d (clap st) = Some clap1
    /\ clap_at clap1 0 = Some d
    /\ detect_clap_sequence (clap_sequence_size - 2) 0 0 clap1
       = Returns (b, clap st')
    /\ (b = false -> clap_at (clap st') 0 = Some d)
    /\ claw_state st' = xorb b (claw_state st)
    /\ last_clap_time st' = Some (millis_now r).
Proof.
  intros Hok Hwf Hlast Ha Hd Hnow.
  destruct (loop_pass_spec r st Hok Hwf) as (st' & Hpass & Hwf' & _ & Hadm).
  destruct (Hadm Ha) as (clap1 & b & Hins & Hdet & Hlast' & Hclaw & _).
  rewrite Hlast, Hnow in Hins. cbn [default from_option id] in Hins.
  assert (ulong (ulong (t + d) - t) = d) as Hsample.
  { unfold ulong, wrap. rewrite Zminus_mod_idemp_l.
    replace (t + d - t) with d by lia. by apply Z.mod_small. }
  rewrite Hsample in Hins.
  destruct (insert_ages _ _ _ Hok Hwf Hins) as (Hwfc1 & Hage & _).
  exists st', clap1, b. change (clap_sequence_size - 2) with 1.
  split; [exact Hpass|]. split; [exact Hins|]. split; [exact Hage|].
  split; [exact Hdet|]. split; [|split; [exact Hclaw|exact Hlast']].
  intros ->. rewrite detect_unfold in Hdet. apply detect_loop_false in Hdet.
  by rewrite Hdet.
Qed.

(** X7. After a reset a match needs two new events: one event inserted
    into a cleared history is never a match, whatever its interval (even
    one that the accumulator truncates); two events whose intervals are
    both within the band are one. *)
Theorem reset_needs_two_events `{Platform} (clap : ring) (c : Z) :
  platform_ok ->
  ring_wf clap_buffer_size clap ->
  all_zero clap ->
  (forall x, exists clap1,
      insert_all clap_buffer_size [x] clap = Some clap1
      /\ detect_clap_sequence (clap_sequence_size - 2) 0 c clap1
         = Returns (false, clap1))
  /\ (forall d1 d2, in_band 1000 d1 -> in_band 1000 d2 ->
        exists clap2 clap',
          insert_all clap_buffer_size [d1; d2] clap = Some clap2
          /\ detect_clap_sequence (clap_sequence_size - 2) 0 c clap2
             = Returns (true, clap')
          /\ all_zero clap').
Proof.
  intros Hok Hwf Hz.
  assert (0 < uint_bits /\ clap_buffer_size < 2 ^ uint_bits) as [Hw Hb].
  { pose proof (pow2_uint_bits_ge Hok). destruct Hok. unfold clap_buffer_size. lia. }
  change (clap_sequence_size - 2) with 1. split.
  - intros x.
    destruct (insert_wf clap_buffer_size x clap Hw Hb Hwf) as (clap1 & Hins & _).
    exists clap1. split; [by cbn; rewrite Hins|].
    by apply (event_on_cleared_history clap clap1 x c).
  - intros d1 d2 Hb1 Hb2.
    destruct (insert_wf clap_buffer_size d1 clap Hw Hb Hwf) as (clap1 & Hins1 & _).
    destruct (insert_ages _ _ _ Hok Hwf Hins1) as (Hwf1 & Hage1 & _).
    destruct (insert_wf clap_buffer_size d2 clap1 Hw Hb Hwf1) as (clap2 & Hins2 & _).
    destruct (insert_ages _ _ _ Hok Hwf1 Hins2) as (Hwf2 & Hage2 & Hold2).
    destruct (two_gaps_match clap2 c [d2] [d1]) as (clap' & Hret & Hz');
      try done.
    + by destruct Hwf2.
    + intros [|[|i]] x; simpl; intros [= <-]; [done|].
      rewrite <- Hage1. exact (Hold2 0 ltac:(done) ltac:(done)).
    + exists [], d2. split; [done|]. split; [|done]. repeat constructor.
      unfold in_band, max_clap_deviation in Hb2. lia.
    + exists [], d1. split; [done|]. split; [|done]. repeat constructor.
      unfold in_band, max_clap_deviation in Hb1. lia.
    + simpl. lia.
    + simpl. by rewrite Z.add_0_r.
    + simpl. by rewrite Z.add_0_r.
    + exists clap2, clap'. split; [|done]. cbn. rewrite Hins1. cbn. by rewrite Hins2.
Qed.

(** ** More on the matcher *)

Lemma detect_loop_local `{Platform} f : forall sp bp c cd (clap1 clap2 : ring),
  platform_ok ->
  ring_wf clap_buffer_size clap1 -> ring_wf clap_buffer_size clap2 ->
  (forall i, 0 <= i <= lookahead_limit -> clap_at clap1 i = clap_at clap2 i) ->
  0 <= bp ->
  verdict (detect_loop f sp bp c cd clap1)
  = verdict (detect_loop f sp bp c cd clap2).
Proof.
  induction f as [|f IH]; intros sp bp c cd clap1 clap2 Hok Hwf1 Hwf2 Hsame Hbp;
    [done|].
  cbn [detect_loop]. destruct (Z.ltb_spec lookahead_limit bp); [done|].
  rewrite Hsame by lia. destruct (clap_at clap2 bp) as [s|]; [|done].
  destruct (load clap_sequence_timings sp) as [timing|]; [|done].
  assert (0 <= uint (bp + 1)) as Hnext.
  { apply uint_range. destruct Hok. lia. }
  destruct (_ <? _); [by apply IH|].
  destruct (_ <? _); [done|].
  destruct (sp =? 0); [|by apply IH].
  destruct Hwf1 as [_ Hlen1], Hwf2 as [_ Hlen2].
  by rewrite !clear_wf by done.
Qed.

(** X8. The verdict depends on the 16 newest samples only: on two
    histories that agree at the ages [0 .. 15], the matcher gives the same
    answer, whatever the 112 older slots hold. *)
Theorem verdict_depends_on_16_newest `{Platform} (sp bp c : Z)
    (clap1 clap2 : ring) :
  platform_ok ->
  ring_wf clap_buffer_size clap1 -> ring_wf clap_buffer_size clap2 ->
  (forall i, 0 <= i <= lookahead_limit -> clap_at clap1 i = clap_at clap2 i) ->
  0 <= bp ->
  verdict (detect_clap_sequence sp bp c clap1)
  = verdict (detect_clap_sequence sp bp c clap2).
Proof. intros. rewrite !detect_unfold. by apply detect_loop_local. Qed.

Lemma gap_sound `{Platform} (clap clap' : ring) c sp l :
  platform_ok -> 0 <= sp < clap_sequence_size - 1 ->
  forall f bp cd,
  0 <= bp -> bp + Z.of_nat (length l) = lookahead_limit + 1 ->
  ages_from clap bp l ->
  Forall (fun s => 0 <= s < 2 ^ uint_bits - 800) l ->
  0 <= cd < 800 ->
  detect_loop f sp bp c cd clap = Returns (true, clap') ->
  exists (k : nat) f', (0 < k <= length l)%nat
    /\ in_band 1000 (cd + total (take k l))
    /\ (sp = 0
        \/ detect_loop f' (sp - 1) (bp + Z.of_nat k) c 0 clap
           = Returns (true, clap')).
Proof.
  intros Hok Hsp. unfold lookahead_limit.
  induction l as [|s l IH]; intros f bp cd Hbp Hlen Hages Hrange Hcd Hret.
  - destruct f as [|f]; [done|]. simpl in Hlen.
    rewrite detect_loop_beyond in Hret by (unfold lookahead_limit; lia). done.
  - destruct f as [|f]; [done|].
    apply ages_from_cons in Hages as [Hs Hages].
    apply Forall_cons_1 in Hrange as [Hs0 Hrange].
    simpl length in Hlen.
    rewrite (detect_loop_pass _ _ _ _ _ _ s) in Hret
      by (done || unfold lookahead_limit; lia).
    rewrite accumulate_small in Hret by (done || lia).
    destruct (Z.ltb_spec (cd + s) 800).
    + destruct (IH f (bp + 1) (cd + s)) as (k & f' & Hk & Hband & Hnext);
        try done; try lia.
      exists (S k), f'. split; [simpl; lia|]. split.
      * simpl. by replace (cd + (s + total (take k l)))
          with (cd + s + total (take k l)) by lia.
      * destruct Hnext as [?|Hnext]; [by left|]. right.
        by replace (bp + Z.of_nat (S k)) with (bp + 1 + Z.of_nat k) by lia.
    + destruct (Z.ltb_spec 1200 (cd + s)); [done|].
      exists 1%nat, f. split; [simpl; lia|]. split.
      * unfold in_band, max_clap_deviation. simpl. destruct l; simpl; lia.
      * destruct (Z.eqb_spec sp 0); [by left|by right].
Qed.

(** X9. No match without two gaps in the band: when the 16 newest samples
    are representable in the accumulator with room for a partial sum
    (each below [2 ^ uint_bits - 800]), a match means that the newest
    [k1] samples and the [k2] samples after them each sum to a value
    within 1000 +- 200, in exact arithmetic. *)
Theorem match_is_sound `{Platform} (clap clap' : ring) (c : Z) (l : list Z) :
  platform_ok ->
  length l = 16%nat ->
  ages_from clap 0 l ->
  Forall (fun s => 0 <= s < 2 ^ uint_bits - 800) l ->
  detect_clap_sequence (clap_sequence_size - 2) 0 c clap = Returns (true, clap') ->
  exists k1 k2 : nat,
    (0 < k1)%nat /\ (0 < k2)%nat /\ (k1 + k2 <= 16)%nat
    /\ in_band 1000 (total (take k1 l))
    /\ in_band 1000 (total (take k2 (drop k1 l))).
Proof.
  intros Hok Hlen Hages Hrange Hret.
  change (clap_sequence_size - 2) with 1 in Hret. rewrite detect_unfold in Hret.
  destruct (gap_sound clap clap' c 1 l Hok ltac:(done) scan_fuel 0 0)
    as (k1 & f1 & Hk1 & Hband1 & Hnext); try done.
  { rewrite Hlen. done. }
  destruct Hnext as [?|Hnext]; [done|].
  rewrite <- (take_drop k1 l) in Hages, Hrange.
  apply ages_from_app in Hages as [_ Hages].
  apply Forall_app in Hrange as [_ Hrange].
  rewrite length_take_le in Hages by lia.
  destruct (gap_sound clap clap' c 0 (drop k1 l) Hok ltac:(done) f1
              (0 + Z.of_nat k1) 0)
    as (k2 & f2 & Hk2 & Hband2 & _); try done; try lia.
  { rewrite length_drop. unfold lookahead_limit. lia. }
  rewrite length_drop in Hk2.
  rewrite Z.add_0_l in Hband1, Hband2.
  exists k1, k2. split; [lia|]. split; [lia|]. split; [lia|]. by split.
Qed.

Lemma total_replicate n d : total (replicate n d) = Z.of_nat n * d.
Proof.
  induction n as [|n IH]; [done|].
  change (total (replicate (S n) d)) with (d + total (replicate n d)). lia.
Qed.

Lemma steady_matches `{Platform} (clap : ring) (c d : Z) (k : nat) :
  platform_ok -> ring_wf clap_buffer_size clap ->
  ages_from clap 0 (replicate 16 d) ->
  0 <= d -> (1 <= k <= 8)%nat ->
  (Z.of_nat k - 1) * d < 800 -> 800 <= Z.of_nat k * d <= 1200 ->
  exists clap', detect_clap_sequence 1 0 c clap = Returns (true, clap')
                /\ all_zero clap'.
Proof.
  intros Hok [_ Hlen] Hages Hd Hk Hlow Hband.
  assert (absorbed_gap 1000 (replicate k d)) as Hgap.
  { destruct k as [|k]; [lia|]. exists (replicate k d), d.
    split; [apply replicate_S_end|]. split; [apply Forall_replicate; lia|].
    rewrite total_replicate. unfold max_clap_deviation. lia. }
  assert (in_band 1000 (total (replicate k d))) as Hin.
  { rewrite total_replicate. unfold in_band, max_clap_deviation. lia. }
  apply (two_gaps_match clap c (replicate k d) (replicate k d)); try done.
  - replace 16%nat with (k + k + (16 - k - k))%nat in Hages by lia.
    rewrite !replicate_add in Hages. by apply ages_from_app in Hages as [Hages _].
  - rewrite !length_replicate. lia.
Qed.

Lemma steady_runs_out `{Platform} (clap : ring) (c d : Z) (k : nat) :
  platform_ok ->
  ages_from clap 0 (replicate 16 d) ->
  0 <= d < 100 -> (9 <= k <= 16)%nat ->
  (Z.of_nat k - 1) * d < 800 -> 800 <= Z.of_nat k * d ->
  detect_clap_sequence 1 0 c clap = Returns (false, clap).
Proof.
  intros Hok Hages Hd Hk Hlow Hhigh.
  replace 16%nat with (k + (16 - k))%nat in Hages by lia.
  rewrite replicate_add in Hages. apply ages_from_app in Hages as [Hnew Hold].
  rewrite length_replicate in Hold.
  rewrite detect_unfold.
  replace scan_fuel with (length (replicate k d) + (17 - k))%nat
    by (rewrite length_replicate; unfold scan_fuel; lia).
  rewrite absorb_gap; try done.
  - change (1 =? 0) with false. cbv iota. rewrite length_replicate.
    replace (17 - k)%nat with (length (replicate (16 - k) d) + 1)%nat
      by (rewrite length_replicate; lia).
    rewrite absorb_noise; try done.
    + apply detect_loop_beyond. rewrite length_replicate. unfold lookahead_limit. lia.
    + lia.
    + rewrite length_replicate. unfold lookahead_limit. lia.
    + apply Forall_replicate. lia.
    + rewrite total_replicate. lia.
  - rewrite length_replicate. unfold lookahead_limit. lia.
  - destruct k as [|k]; [lia|]. exists (replicate k d), d.
    split; [apply replicate_S_end|]. split; [apply Forall_replicate; lia|].
    rewrite total_replicate. unfold max_clap_deviation. lia.
  - rewrite total_replicate. unfold in_band, max_clap_deviation. lia.
Qed.

(** X10. Steady noise: when the 16 newest samples are all the same
    interval [d], the matcher reports a match exactly when [d] is between
    100 and 600 ms or between 800 and 1200 ms. Closer detections run into
    the lookahead limit, intervals between 600 and 800 ms jump over the
    band in two steps. *)
Theorem steady_noise_verdict `{Platform} (clap : ring) (c d : Z) :
  platform_ok ->
  ring_wf clap_buffer_size clap ->
  0 <= d < 2 ^ uint_bits ->
  ages_from clap 0 (replicate 16 d) ->
  (100 <= d <= 600 \/ 800 <= d <= 1200 ->
     exists clap', detect_clap_sequence (clap_sequence_size - 2) 0 c clap
                   = Returns (true, clap') /\ all_zero clap')
  /\ (~ (100 <= d <= 600 \/ 800 <= d <= 1200) ->
        detect_clap_sequence (clap_sequence_size - 2) 0 c clap
        = Returns (false, clap)).
Proof.
  intros Hok Hwf Hd Hages. change (clap_sequence_size - 2) with 1.
  pose proof (pow2_uint_bits_ge Hok) as Hpow.
  assert (forall n : nat, (n <= 16)%nat -> ages_from clap 0 (replicate n d))
    as Hprefix.
  { intros n Hn. replace 16%nat with (n + (16 - n))%nat in Hages by lia.
    rewrite replicate_add in Hages. by apply ages_from_app in Hages as [Hages _]. }
  split.
  - intros Hin.
    destruct (Z_le_gt_dec 800 d); [apply (steady_matches clap c d 1); (done || lia)|].
    destruct (Z_le_gt_dec 400 d); [apply (steady_matches clap c d 2); (done || lia)|].
    pose proof (Z.div_mod 799 d ltac:(lia)) as Hdiv.
    pose proof (Z.mod_pos_bound 799 d ltac:(lia)) as Hmod.
    assert (1 <= 799 / d <= 7) as Hq by nia.
    apply (steady_matches clap c d (Z.to_nat (799 / d) + 1)); try done; try lia.
    all: rewrite Nat2Z.inj_add, Z2Nat.id by lia; nia.
  - intros Hout.
    destruct (Z_le_gt_dec 100 d).
    + destruct (Z_le_gt_dec d 800).
      * assert (600 < d < 800) by lia. rewrite detect_unfold.
        change scan_fuel with (length [d; d] + 15)%nat.
        rewrite overshoot_gap; try done;
          try (simpl; unfold lookahead_limit, max_clap_deviation; lia);
          try (apply (Hprefix 2%nat); lia).
        exists [d], d. split; [done|]. split; [repeat constructor; lia|].
        simpl. unfold max_clap_deviation. lia.
      * rewrite detect_unfold.
        change scan_fuel with (length [d] + 16)%nat.
        rewrite overshoot_gap; try done;
          try (simpl; unfold lookahead_limit, max_clap_deviation; lia);
          try (apply (Hprefix 1%nat); lia).
        exists [], d. split; [done|]. split; [repeat constructor; lia|done].
    + destruct (Z_le_gt_dec 50 d).
      * pose proof (Z.div_mod 799 d ltac:(lia)) as Hdiv.
        pose proof (Z.mod_pos_bound 799 d ltac:(lia)) as Hmod.
        assert (8 <= 799 / d <= 15) as Hq by nia.
        apply (steady_runs_out clap c d (Z.to_nat (799 / d) + 1)); try done;
          try lia.
        all: rewrite Nat2Z.inj_add, Z2Nat.id by lia; nia.
      * rewrite detect_unfold.
        change scan_fuel with (length (replicate 16 d) + 1)%nat.
        rewrite absorb_noise; try done;
          try (rewrite ?length_replicate, ?total_replicate;
               unfold lookahead_limit; lia);
          try (apply Forall_replicate; lia).
Qed.

(** ** More on the ring *)

Lemma insert_all_head `{Platform} (buffer_size : Z) (xs : list Z) :
  forall cb cb' : ring,
  pow2_size buffer_size -> ring_wf buffer_size cb ->
  insert_all buffer_size xs cb = Some cb' ->
  ring_wf buffer_size cb'
  /\ circular_buffer.head cb'
     = (circular_buffer.head cb + Z.of_nat (length xs)) mod buffer_size.
Proof.
  induction xs as [|x xs IH] using rev_ind; intros cb cb' Hp Hwf Hall.
  - injection Hall as <-. split; [done|]. simpl. rewrite Z.add_0_r.
    destruct Hwf. symmetry. apply Z.mod_small. lia.
  - unfold insert_all in Hall. rewrite foldl_app in Hall. simpl in Hall.
    fold (insert_all buffer_size xs cb) in Hall.
    destruct (insert_all buffer_size xs cb) as [cb1|] eqn:Hxs; [|done].
    simpl in Hall. destruct (IH cb cb1 Hp Hwf Hxs) as [Hwf1 Hhead1].
    assert (0 < uint_bits /\ buffer_size < 2 ^ uint_bits) as [Hw Hb].
    { destruct Hp as (k & Hk & ->). split; [lia|]. apply Z.pow_lt_mono_r; lia. }
    destruct (insert_wf buffer_size x cb1 Hw Hb Hwf1)
      as (cb2 & Hins & Hwf2 & _ & Hhead2).
    rewrite Hall in Hins. injection Hins as <-. split; [done|].
    rewrite Hhead2, Hhead1, length_app, Zplus_mod_idemp_l. simpl. f_equal. lia.
Qed.

(** X11. The ring keeps the newest [buffer_size] samples and nothing else:
    inserting [xs] into any ring that satisfies the invariant succeeds and
    moves the head cursor by [length xs] modulo the capacity; once at
    least [buffer_size] samples went in, every age reads the sample
    inserted that many insertions ago, so nothing of the earlier contents
    is left. *)
Theorem ring_keeps_newest `{Platform} (buffer_size : Z) (xs : list Z)
    (cb : ring) :
  pow2_size buffer_size ->
  ring_wf buffer_size cb ->
  exists cb',
    insert_all buffer_size xs cb = Some cb'
    /\ ring_wf buffer_size cb'
    /\ circular_buffer.head cb'
       = (circular_buffer.head cb + Z.of_nat (length xs)) mod buffer_size
    /\ (buffer_size <= Z.of_nat (length xs) ->
        forall index, 0 <= index < buffer_size ->
          circular_buffer.subscript buffer_size cb' index
          = rev xs !! Z.to_nat index
          /\ is_Some (rev xs !! Z.to_nat index)).
Proof.
  intros Hp Hwf.
  destruct (insert_all_ages buffer_size xs cb Hp Hwf) as (cb' & Hall & Hwf' & Hages).
  destruct (insert_all_head buffer_size xs cb cb' Hp Hwf Hall) as [_ Hhead].
  exists cb'. split; [done|]. split; [done|]. split; [done|].
  intros Hfull index Hi.
  assert (is_Some (rev xs !! Z.to_nat index)) as [x Hx].
  { apply lookup_lt_is_Some. rewrite length_rev. lia. }
  rewrite Hages by done. rewrite Hx. split; [done|by eexists].
Qed.

(** X12. The matcher trusts its caller with [sequence_position]: for a
    position at or beyond [clap_sequence_size - 1] the first pass reads
    [clap_sequence_timings] outside the array, unless [buffer_position]
    is already beyond the lookahead limit, in which case the call returns
    [false] before any read. *)
Theorem sequence_position_out_of_range `{Platform} (sp bp c : Z) (clap : ring) :
  platform_ok ->
  ring_wf clap_buffer_size clap ->
  clap_sequence_size - 1 <= sp ->
  (0 <= bp <= lookahead_limit ->
     detect_clap_sequence sp bp c clap = Undefined)
  /\ (lookahead_limit < bp ->
        detect_clap_sequence sp bp c clap = Returns (false, clap)).
Proof.
  intros Hok [_ Hlen] Hsp. rewrite !detect_unfold. unfold scan_fuel.
  change 17%nat with (S 16). generalize 16%nat as f. intros f. split.
  - intros Hbp. cbn [detect_loop].
    destruct (Z.ltb_spec lookahead_limit bp); [lia|].
    destruct (clap_at_Some clap bp Hok Hlen) as [s ->].
    assert (load clap_sequence_timings sp = None) as ->; [|done].
    unfold load, clap_sequence_size in *. destruct (Z.leb_spec 0 sp); [|done].
    apply lookup_ge_None_2. simpl. lia.
  - intros Hbp. by apply detect_loop_beyond.
Qed.

(** ** The further properties at concrete inputs *)

(** X1 on an AVR board: an admitted and a rejected reading after
    [setup()]. *)
Lemma sketch_never_undefined_witness :
  exists st',
    @loop_passes avr
      [ {| pulse_duration := 1000; brownout_sample := 500;
           millis_static := 0; millis_now := 7 |};
        {| pulse_duration := 140000; brownout_sample := 500;
           millis_static := 0; millis_now := 150 |} ] setup = Returns st'
    /\ ring_wf clap_buffer_size (clap st').
Proof.
  apply (@sketch_never_undefined avr).
  - unfold platform_ok, ulong_bits. simpl. lia.
  - split; [simpl; unfold clap_buffer_size; lia|reflexivity].
Defined.


(** X3 on an AVR board: three claps a second apart after [setup()] toggle
    the claw once. *)
Lemma toggle_rate_limit_witness :
  let rs := [ {| pulse_duration := 1000; brownout_sample := 500;
                 millis_static := 0; millis_now := 0 |};
              {| pulse_duration := 1000; brownout_sample := 500;
                 millis_static := 0; millis_now := 1000 |};
              {| pulse_duration := 1000; brownout_sample := 500;
                 millis_static := 0; millis_now := 2000 |} ] in
  let st' := match @loop_passes avr rs setup with
             | Returns s => s | _ => setup end in
  length (servo_angles (outputs st')) = 3%nat
  /\ (2 * length (servo_angles (outputs st'))
      <= 2 * length (servo_angles (outputs setup))
         + length (List.filter admitted rs))%nat.
Proof.
  intros rs st'. split; [subst st' rs; vm_compute; reflexivity|].
  refine (@toggle_rate_limit avr rs setup st' _ _ _ _).
  - unfold platform_ok, ulong_bits. simpl. lia.
  - split; [simpl; unfold clap_buffer_size; lia|reflexivity].
  - reflexivity.
  - subst st' rs. vm_compute. reflexivity.
Defined.

(** X4 on an AVR board: the servo is at the angle of the claw state after
    [setup()] and after three claps. *)
Lemma servo_follows_claw_witness :
  let rs := [ {| pulse_duration := 1000; brownout_sample := 500;
                 millis_static := 0; millis_now := 0 |};
              {| pulse_duration := 1000; brownout_sample := 500;
                 millis_static := 0; millis_now := 1000 |};
              {| pulse_duration := 1000; brownout_sample := 500;
                 millis_static := 0; millis_now := 2000 |} ] in
  let st' := match @loop_passes avr rs setup with
             | Returns s => s | _ => setup end in
  @platform_ok avr /\ servo_at_claw setup /\ servo_at_claw st'.
Proof.
  intros rs st'.
  assert (@platform_ok avr) as Hok
    by (unfold platform_ok, ulong_bits; simpl; lia).
  destruct (@servo_follows_claw avr rs setup st' Hok) as (Hsetup & _ & Hrun).
  split; [exact Hok|]. split; [exact Hsetup|].
  apply Hrun. subst st' rs. vm_compute. reflexivity.
Defined.

(** X5 on an AVR board: events 1020 and 2050 ms after the last one. *)
Lemma three_claps_toggle_once_witness :
  let st := {| clap := circular_buffer.init clap_buffer_size;
               last_clap_time := Some 0; claw_state := true;
               outputs := [] |} in
  exists st2,
    @loop_passes avr
      [ {| pulse_duration := 1000; brownout_sample := 500;
           millis_static := 0; millis_now := 1020 |};
        {| pulse_duration := 1000; brownout_sample := 500;
           millis_static := 0; millis_now := 2050 |} ] st = Returns st2
    /\ claw_state st2 = negb (claw_state st)
    /\ length (servo_angles (outputs st2))
       = S (length (servo_angles (outputs st))).
Proof.
  cbv zeta.
  refine (@three_claps_toggle_once avr _ _ _ 0 _ _ _ _ _ _ _).
  - unfold platform_ok, ulong_bits. simpl. lia.
  - split; [simpl; unfold clap_buffer_size; lia|reflexivity].
  - reflexivity.
  - reflexivity.
  - reflexivity.
  - unfold in_band, max_clap_deviation. vm_compute. split; discriminate.
  - unfold in_band, max_clap_deviation. vm_compute. split; discriminate.
Defined.

(** X6 on an AVR board: the last event 500 ms before the clock rolls over,
    the next one 1000 ms later. *)
Lemma interval_survives_rollover_witness :
  let st := {| clap := circular_buffer.init clap_buffer_size;
               last_clap_time := Some (2 ^ 32 - 500); claw_state := true;
               outputs := [] |} in
  let r := {| pulse_duration := 1000; brownout_sample := 500;
              millis_static := 0; millis_now := 500 |} in
  exists st' clap1 b,
    @loop avr r st = Returns st'
    /\ @circular_buffer.insert avr clap_buffer_size 1000 (clap st) = Some clap1
    /\ @clap_at avr clap1 0 = Some 1000
    /\ @detect_clap_sequence avr (clap_sequence_size - 2) 0 0 clap1
       = Returns (b, clap st')
    /\ (b = false -> @clap_at avr (clap st') 0 = Some 1000)
    /\ claw_state st' = xorb b (claw_state st)
    /\ last_clap_time st' = Some (millis_now r).
Proof.
  intros st r.
  refine (@interval_survives_rollover avr r st (2 ^ 32 - 500) 1000 _ _ _ _ _ _).
  - unfold platform_ok, ulong_bits. simpl. lia.
  - split; [simpl; unfold clap_buffer_size; lia|reflexivity].
  - reflexivity.
  - reflexivity.
  - unfold ulong_bits. lia.
  - vm_compute. reflexivity.
Defined.

(** X7 on an AVR board, for the history as declared. *)
Lemma reset_needs_two_events_witness :
  exists clap1,
    @insert_all avr clap_buffer_size [1000]
      (circular_buffer.init clap_buffer_size) = Some clap1
    /\ @detect_clap_sequence avr (clap_sequence_size - 2) 0 0 clap1
       = Returns (false, clap1).
Proof.
  destruct (@reset_needs_two_events avr
              (circular_buffer.init clap_buffer_size) 0) as [Hone _].
  - unfold platform_ok, ulong_bits. simpl. lia.
  - split; [simpl; unfold clap_buffer_size; lia|reflexivity].
  - reflexivity.
  - exact (Hone 1000).
Defined.

(** X8 on an AVR board: two histories that differ in the 17th newest
    sample only. *)
Lemma verdict_depends_on_16_newest_witness :
  @clap_at avr (@history_of avr (5 :: replicate 16 100)) 16
  <> @clap_at avr (@history_of avr (7 :: replicate 16 100)) 16
  /\ verdict (@detect_clap_sequence avr 1 0 0
                (@history_of avr (5 :: replicate 16 100)))
     = verdict (@detect_clap_sequence avr 1 0 0
                  (@history_of avr (7 :: replicate 16 100))).
Proof.
  split; [vm_compute; discriminate|].
  apply (@verdict_depends_on_16_newest avr).
  - unfold platform_ok, ulong_bits. simpl. lia.
  - apply history_wf.
  - apply history_wf.
  - intros i Hi. unfold lookahead_limit in Hi.
    destruct (@history_of_spec avr (5 :: replicate 16 100) avr_ok) as [_ H5].
    destruct (@history_of_spec avr (7 :: replicate 16 100) avr_ok) as [_ H7].
    rewrite H5, H7 by (unfold clap_buffer_size; lia).
    assert (exists n, Z.to_nat i = n /\ (n < 16)%nat) as (n & -> & Hn)
      by (exists (Z.to_nat i); lia).
    do 16 (destruct n as [|n]; [reflexivity|]). lia.
  - lia.
Defined.

(** X9 on an AVR board: the match on the samples 1030, 1020. *)
Lemma match_is_sound_witness :
  let l := [1030; 1020] ++ replicate 14 0 in
  exists k1 k2 : nat,
    (0 < k1)%nat /\ (0 < k2)%nat /\ (k1 + k2 <= 16)%nat
    /\ in_band 1000 (total (take k1 l))
    /\ in_band 1000 (total (take k2 (drop k1 l))).
Proof.
  cbv zeta.
  refine (@match_is_sound avr
            (@history_of avr (replicate 14 0 ++ [1020; 1030]))
            (match @detect_clap_sequence avr 1 0 0
                     (@history_of avr (replicate 14 0 ++ [1020; 1030]))
             with Returns (_, c) => c
             | _ => circular_buffer.init clap_buffer_size end)
            0 _ _ _ _ _ _).
  - unfold platform_ok, ulong_bits. simpl. lia.
  - reflexivity.
  - apply (@history_of_ages avr (replicate 14 0 ++ [1020; 1030]) avr_ok).
    simpl. unfold clap_buffer_size. lia.
  - repeat (constructor; [simpl; lia|]). constructor.
  - vm_compute. reflexivity.
Defined.

(** X10 on an AVR board: detections every 100 ms. *)
Lemma steady_noise_verdict_witness :
  exists clap',
    @detect_clap_sequence avr (clap_sequence_size - 2) 0 0
      (@history_of avr (replicate 16 100)) = Returns (true, clap')
    /\ all_zero clap'.
Proof.
  destruct (@steady_noise_verdict avr (@history_of avr (replicate 16 100)) 0 100)
    as [Hyes _].
  - unfold platform_ok, ulong_bits. simpl. lia.
  - apply history_wf.
  - simpl. lia.
  - apply (@history_of_ages avr (replicate 16 100) avr_ok).
    simpl. unfold clap_buffer_size. lia.
  - apply Hyes. lia.
Defined.

(** X11 on an AVR board: a ring of capacity 4 after six insertions. *)
Lemma ring_keeps_newest_witness :
  exists cb',
    @insert_all avr 4 [1; 2; 3; 4; 5; 6] (circular_buffer.init 4) = Some cb'
    /\ circular_buffer.head cb' = 2
    /\ @circular_buffer.subscript avr 4 cb' 3 = Some 3.
Proof.
  destruct (@ring_keeps_newest avr 4 [1; 2; 3; 4; 5; 6] (circular_buffer.init 4))
    as (cb' & Hall & _ & Hhead & Hread).
  - exists 2. split; [simpl; lia|reflexivity].
  - split; [simpl; lia|reflexivity].
  - exists cb'. split; [exact Hall|]. split; [exact Hhead|].
    destruct (Hread ltac:(simpl; lia) 3 ltac:(lia)) as [Hthird _].
    exact Hthird.
Defined.

(** X12 on an AVR board: [sequence_position = 2] on the history as
    declared. *)
Lemma sequence_position_out_of_range_witness :
  @detect_clap_sequence avr 2 0 0 (circular_buffer.init clap_buffer_size)
  = Undefined.
Proof.
  destruct (@sequence_position_out_of_range avr 2 0 0
              (circular_buffer.init clap_buffer_size)) as [Hin _].
  - unfold platform_ok, ulong_bits. simpl. lia.
  - split; [simpl; unfold clap_buffer_size; lia|reflexivity].
  - unfold clap_sequence_size. lia.
  - apply Hin. unfold lookahead_limit. lia.
Defined.
